(** * Lullaby build-support scripts: a shallow embedding and its properties

    Two scripts are modelled:

    - [dev/glob_files.py] (module [GlobFiles]): expands the glob patterns of
      its command line and prints the matches, newline-joined and with
      backslashes turned into forward slashes;
    - [lullaby/tools/generate_entity_schema.py] (module [GenerateEntitySchema]):
      copies a schema file, appends a second file and a [file_identifier]
      declaration.

    A [string] of the Standard Library is a byte string, one [ascii] per
    byte: the [str] of Python 2, which [glob_files.py] is written for, and,
    for [generate_entity_schema.py], the bytes of a file, of a path and of a
    command-line argument.  [generate_entity_schema.py] is modelled as Python
    3 runs it: the content of a file opened in text mode is decoded and
    encoded with the codec of the host's locale and its line endings are
    translated, two paths may lead to one file, an [open] that the host
    refuses raises with the host's errno, and a write may fail. *)

From Stdlib Require Import String Ascii List ZArith Lia Bool.
From stdpp Require Import base option gmap strings list.

Import ListNotations.
Local Open Scope string_scope.
Local Open Scope list_scope.

(** ** Characters and strings shared by both scripts *)

Definition newline : ascii := "010"%char.
Definition backslash : ascii := "\"%char.
Definition slash : ascii := "/"%char.
Definition dquote : ascii := "034"%char.

(** [c in s] for a one-character [c]. *)
Fixpoint contains (c : ascii) (s : string) : bool :=
  match s with
  | EmptyString => false
  | String c' s' => Ascii.eqb c c' || contains c s'
  end.

(** [str.replace(old, new)] where [old] and [new] are one-character strings,
    as in [.replace('\\', '/')]: every occurrence of the byte is replaced. *)
Fixpoint replace (old new : ascii) (s : string) : string :=
  match s with
  | EmptyString => EmptyString
  | String c s' => String (if Ascii.eqb c old then new else c) (replace old new s')
  end.

Module GlobFiles.

(** [sep.join(l)]. *)
Fixpoint join (sep : string) (l : list string) : string :=
  match l with
  | [] => EmptyString
  | [x] => x
  | x :: rest => x +:+ sep +:+ join sep rest
  end.

(** The [print] statement: the text of its argument, then a newline. *)
Definition print (s : string) (stdout : string) : string :=
  stdout +:+ s +:+ String newline EmptyString.

Section Collector.

(** [glob.glob]: the paths of the host file system that match a pattern, in
    the order the file system enumerates them.  The script treats it as a
    black box, and so does the model. *)
Variable glob : string -> list string.

(** The loop [for pattern in argv[1:]: files.extend(glob.glob(pattern))],
    started from the list [files]. *)
Fixpoint collect (files : list string) (patterns : list string) : list string :=
  match patterns with
  | [] => files
  | pattern :: rest => collect (files ++ glob pattern) rest
  end.

(** The value of ['\n'.join(files).replace('\\', '/')]. *)
Definition output_string (argv : list string) : string :=
  replace backslash slash
    (join (String newline EmptyString) (collect [] (tail argv))).

(** [main(argv)]: what is written to standard output, and the returned
    status, which [sys.exit] makes the exit status of the process. *)
Definition main (argv : list string) : string * Z :=
  (print (output_string argv) EmptyString, 0%Z).

(** The spec's reading of the output: each path normalised on its own,
    then the paths joined. *)
Definition normalize_path (path : string) : string :=
  replace backslash slash path.

Definition spec_output (paths : list string) : string :=
  join (String newline EmptyString) (List.map normalize_path paths).

(** The code's order of operations on a list of paths: join, then replace. *)
Definition code_output (paths : list string) : string :=
  replace backslash slash (join (String newline EmptyString) paths).

End Collector.

End GlobFiles.

(** ** argparse

    The part of CPython's [Lib/argparse.py] (as of release 3.11) that a
    parser made only of optional arguments runs: [_parse_optional],
    [_get_option_tuples], [_match_argument], [_get_values] and the loop of
    [_parse_known_args], followed by the check of [parse_args].  Definitions
    keep the library's names.  The text of the usage and help messages
    depends on the width of the terminal and is kept symbolic: an exit
    carries the message as data. *)

Module Argparse.

Inductive ActionClass := StoreAction | HelpAction.

Record Action := mkAction {
  option_strings : list string;
  dest : string;
  action_class : ActionClass;
  required : bool;
  help : string
}.

#[global] Instance ActionClass_eq_dec : EqDecision ActionClass.
Proof. solve_decision. Defined.

#[global] Instance Action_eq_dec : EqDecision Action.
Proof. solve_decision. Defined.

Record ArgumentParser_ := mkParser {
  description : string;
  actions : list Action
}.

(** The action [-h/--help] that [ArgumentParser.__init__] registers, since
    [add_help] defaults to [True]. *)
Definition help_action : Action :=
  mkAction ["-h"; "--help"] "help" HelpAction false
           "show this help message and exit".

Definition ArgumentParser (description : string) : ArgumentParser_ :=
  mkParser description [help_action].

Definition starts_with_dash (s : string) : bool :=
  match s with
  | String c _ => Ascii.eqb c "-"
  | EmptyString => false
  end.

Fixpoint lstrip_dash (s : string) : string :=
  match s with
  | String c s' => if Ascii.eqb c "-" then lstrip_dash s' else s
  | EmptyString => EmptyString
  end.

(** [_get_optional_kwargs]: the destination is inferred from the first long
    option string, or from the first option string when none is long. *)
Definition infer_dest (option_strings : list string) : string :=
  let long := List.filter (fun s => String.prefix "--" s) option_strings in
  let dest_option_string :=
    match long, option_strings with
    | s :: _, _ => s
    | [], s :: _ => s
    | [], [] => EmptyString
    end in
  replace "-" "_" (lstrip_dash dest_option_string).

(** [parser.add_argument] called with option strings, [help] and [required]:
    the default action (store) and the default [nargs] (one argument). *)
Definition add_argument (option_strings : list string) (help : string)
    (required : bool) (parser : ArgumentParser_) : ArgumentParser_ :=
  mkParser (description parser)
    (actions parser ++
       [mkAction option_strings (infer_dest option_strings) StoreAction required help]).

(** [_get_action_name]. *)
Definition get_action_name (action : Action) : string :=
  GlobFiles.join "/" (option_strings action).

(** What [parser.error] and [ArgumentError] report. *)
Inductive ErrorMessage :=
| ambiguous_option (option : string) (matches : list string)
| unexpected_option_string (option : string)
| expected_one_argument (action_name : string)
| ignored_explicit_argument (action_name : string) (explicit_arg : string)
| arguments_required (names : list string)
| unrecognized_arguments (extras : list string).

(** The two ways the parser ends the process:
    - [print_help(); exit()]: the help on standard output, status 0;
    - [error(message)]: the usage and the message on standard error,
      [exit(2, ...)]. *)
Inductive SystemExit :=
| exit_help
| exit_error (message : ErrorMessage).

Definition status (e : SystemExit) : Z :=
  match e with
  | exit_help => 0
  | exit_error _ => 2
  end.

(** The values a store action of this kind puts in the namespace: the
    argument string, or the empty list (see [get_values]). *)
Inductive Value :=
| Str (s : string)
| EmptyList.

(** A [Namespace]: attribute name to value.  An attribute holding [None]
    (the default of every destination) is an absent key, so that reading
    [args.name] is the lookup [args !! name]. *)
Abbreviation Namespace := (gmap string Value).

(** [(action, option_string, explicit_arg)], with [None] for an option
    string that no action of the parser bears. *)
Definition OptionTuple : Type := option Action * string * option string.

(** One character of [arg_strings_pattern], with the option tuple recorded
    in [option_string_indices] for an ['O']. *)
Inductive Pattern :=
| O (option_tuple : OptionTuple)
| A
| Dash.

(** [arg_string.split('=', 1)], when ['=' in arg_string]. *)
Fixpoint split_eq (s : string) : option (string * string) :=
  match s with
  | EmptyString => None
  | String c s' =>
      if Ascii.eqb c "=" then Some (EmptyString, s')
      else match split_eq s' with
           | Some (before, after) => Some (String c before, after)
           | None => None
           end
  end.

(** [\d], on the bytes of an argument: the ASCII digits.  (In a [str] it
    also matches the digits of other scripts, which are not taken as digits
    here.) *)
Definition is_digit (c : ascii) : bool :=
  (Nat.leb 48 (nat_of_ascii c)) && (Nat.leb (nat_of_ascii c) 57).

(** The longest prefix of digits, and what follows it. *)
Fixpoint span_digits (s : string) : string * string :=
  match s with
  | String c s' =>
      if is_digit c
      then let '(digits, rest) := span_digits s' in (String c digits, rest)
      else (EmptyString, s)
  | EmptyString => (EmptyString, EmptyString)
  end.

(** [\d+$]: one digit at least, up to the end of the string or to a newline
    that ends the string. *)
Definition digits_to_end (s : string) : bool :=
  match span_digits s with
  | (String _ _, EmptyString) => true
  | (String _ _, String c EmptyString) => Ascii.eqb c newline
  | _ => false
  end.

(** [_negative_number_matcher]: [^-\d+$|^-\d*\.\d+$]. *)
Definition negative_number (s : string) : bool :=
  match s with
  | String c s' =>
      Ascii.eqb c "-" &&
      (digits_to_end s' ||
       match snd (span_digits s') with
       | String d s'' => Ascii.eqb d "." && digits_to_end s''
       | EmptyString => false
       end)
  | EmptyString => false
  end.

Section Parsing.

Variable parser : ArgumentParser_.

(** [_option_string_actions], in registration order. *)
Definition option_string_actions : list (string * Action) :=
  flat_map (fun action => List.map (fun s => (s, action)) (option_strings action))
           (actions parser).

(** [self._option_string_actions[s]], when [s in self._option_string_actions]. *)
Definition option_string_action (s : string) : option Action :=
  option_map snd (List.find (fun p => String.eqb (fst p) s) option_string_actions).

Definition get_option_tuples (option_string : string)
  : ErrorMessage + list OptionTuple :=
  match option_string with
  | String c0 (String c1 short_explicit_arg) =>
      if Ascii.eqb c0 "-" && Ascii.eqb c1 "-" then
        let '(option_prefix, explicit_arg) :=
          match split_eq option_string with
          | Some (before, after) => (before, Some after)
          | None => (option_string, None)
          end in
        inr (flat_map
               (fun '(s, action) =>
                  if String.prefix option_prefix s
                  then [(Some action, s, explicit_arg)] else [])
               option_string_actions)
      else if Ascii.eqb c0 "-" then
        let short_option_prefix := String c0 (String c1 EmptyString) in
        inr (flat_map
               (fun '(s, action) =>
                  if String.eqb s short_option_prefix
                  then [(Some action, s, Some short_explicit_arg)]
                  else if String.prefix option_string s
                  then [(Some action, s, None)] else [])
               option_string_actions)
      else inl (unexpected_option_string option_string)
  | _ => inl (unexpected_option_string option_string)
  end.

(** [_parse_optional]: [inr None] for a positional, [inr (Some t)] for an
    optional, [inl] where the library calls [self.error]. *)
Definition parse_optional (arg_string : string)
  : ErrorMessage + option OptionTuple :=
  if negb (starts_with_dash arg_string) then inr None
  else match option_string_action arg_string with
  | Some action => inr (Some (Some action, arg_string, None))
  | None =>
  if Nat.eqb (String.length arg_string) 1 then inr None
  else
  let by_equals :=
    match split_eq arg_string with
    | Some (option_string, explicit_arg) =>
        match option_string_action option_string with
        | Some action => Some (Some action, option_string, Some explicit_arg)
        | None => None
        end
    | None => None
    end in
  match by_equals with
  | Some option_tuple => inr (Some option_tuple)
  | None =>
  match get_option_tuples arg_string with
  | inl message => inl message
  | inr (t1 :: t2 :: more) =>
      inl (ambiguous_option arg_string
             (List.map (fun t : OptionTuple => snd (fst t)) (t1 :: t2 :: more)))
  | inr [option_tuple] => inr (Some option_tuple)
  | inr [] =>
      if negative_number arg_string then inr None
      else if contains " " arg_string then inr None
      else inr (Some (None, arg_string, None))
  end end end.

(** The first loop of [_parse_known_args]: every argument string gets its
    pattern character; after the first [--] all are arguments. *)
Fixpoint arg_strings_pattern (arg_strings : list string)
  : ErrorMessage + list (string * Pattern) :=
  match arg_strings with
  | [] => inr []
  | arg_string :: rest =>
      if String.eqb arg_string "--"
      then inr ((arg_string, Dash) :: List.map (fun s => (s, A)) rest)
      else match parse_optional arg_string with
           | inl message => inl message
           | inr parsed =>
               match arg_strings_pattern rest with
               | inl message => inl message
               | inr patterns =>
                   inr ((arg_string,
                         match parsed with
                         | None => A
                         | Some option_tuple => O option_tuple
                         end) :: patterns)
               end
           end
  end.

(** [_match_argument] on an optional action.  [_get_nargs_pattern] removes
    the [-] from the pattern of an action that has option strings: a store
    action matches [(A)], the help action, whose [nargs] is 0, matches [()].
    [None] is the [ArgumentError] raised when nothing matches. *)
Definition match_argument (action : Action) (selected_patterns : list Pattern)
  : option nat :=
  match action_class action with
  | HelpAction => Some 0
  | StoreAction =>
      match selected_patterns with
      | A :: _ => Some 1
      | _ => None
      end
  end.

(** [(action, args, option_string)]. *)
Definition ActionTuple : Type := Action * list string * string.

(** The branch of the loop of [consume_optional] taken when there is no
    explicit argument: the arguments are the strings that follow. *)
Definition consume_following (action : Action) (option_string : string)
    (action_tuples : list ActionTuple) (following : list (string * Pattern))
  : ErrorMessage + (list ActionTuple * nat) :=
  match match_argument action (List.map snd following) with
  | None => inl (expected_one_argument (get_action_name action))
  | Some arg_count =>
      let args := firstn arg_count (List.map fst following) in
      inr (action_tuples ++ [(action, args, option_string)], arg_count)
  end.

(** The loop of [consume_optional] while there is an explicit argument
    (as in [--infile=a.fbs], [-ia.fbs] or the tail of [-hi]).  The result is
    the action tuples and the number of following strings taken. *)
Fixpoint consume_explicit (action : Action) (option_string : string)
    (explicit_arg : string) (action_tuples : list ActionTuple)
    (following : list (string * Pattern)) {struct explicit_arg}
  : ErrorMessage + (list ActionTuple * nat) :=
  match match_argument action [A], explicit_arg with
  | Some 0, String c new_explicit_arg =>
      if negb (String.prefix "--" option_string) then
        let action_tuples := action_tuples ++ [(action, [], option_string)] in
        let option_string := String "-" (String c EmptyString) in
        match option_string_action option_string with
        | Some action =>
            match new_explicit_arg with
            | EmptyString =>
                consume_following action option_string action_tuples following
            | String _ _ =>
                consume_explicit action option_string new_explicit_arg
                                 action_tuples following
            end
        | None =>
            inl (ignored_explicit_argument (get_action_name action) explicit_arg)
        end
      else inl (ignored_explicit_argument (get_action_name action) explicit_arg)
  | Some 1, _ =>
      inr (action_tuples ++ [(action, [explicit_arg], option_string)], 0)
  | _, _ => inl (ignored_explicit_argument (get_action_name action) explicit_arg)
  end.

Definition consume_optional (action : Action) (option_string : string)
    (explicit_arg : option string) (following : list (string * Pattern))
  : ErrorMessage + (list ActionTuple * nat) :=
  match explicit_arg with
  | Some explicit_arg =>
      consume_explicit action option_string explicit_arg [] following
  | None => consume_following action option_string [] following
  end.

(** What parsing has built so far: the namespace and [seen_actions]. *)
Definition ParseState : Type := Namespace * list Action.

(** [_get_values] for a store action with the default [nargs]: the first
    [--] among the argument strings is removed; one string left is the
    value, as it is (no [type] conversion, no [choices]).  A store action
    is handed one argument string, so nothing is left only when that string
    is [--] (as in [--infile=--]), and the value is then the empty list. *)
Definition get_values (arg_strings : list string) : Value :=
  match arg_strings with
  | [arg_string] => if String.eqb arg_string "--" then EmptyList else Str arg_string
  | _ => EmptyList
  end.

(** [take_action]: the action is recorded as seen, then called.  A store
    action sets its destination; the help action prints the help and
    exits. *)
Definition take_action (st : ParseState) (t : ActionTuple)
  : SystemExit + ParseState :=
  let '(action, argument_strings, _) := t in
  let '(namespace, seen_actions) := st in
  match action_class action with
  | HelpAction => inl exit_help
  | StoreAction =>
      inr (<[dest action := get_values argument_strings]> namespace,
           seen_actions ++ [action])
  end.

Fixpoint take_actions (st : ParseState) (action_tuples : list ActionTuple)
  : SystemExit + ParseState :=
  match action_tuples with
  | [] => inr st
  | t :: rest =>
      match take_action st t with
      | inl e => inl e
      | inr st' => take_actions st' rest
      end
  end.

(** The main loop of [_parse_known_args].  The parser has no positional
    action, so [consume_positionals] takes nothing and every string that is
    not an option or the argument of one goes to [extras].  After an
    optional, parsing resumes at [stop = start + arg_count], where
    [arg_count] is 0 or 1. *)
Fixpoint consume (patterns : list (string * Pattern)) (st : ParseState)
    (extras : list string) : SystemExit + (ParseState * list string) :=
  match patterns with
  | [] => inr (st, extras)
  | (arg_string, A) :: rest
  | (arg_string, Dash) :: rest
  | (arg_string, O (None, _, _)) :: rest =>
      consume rest st (extras ++ [arg_string])
  | (_, O (Some action, option_string, explicit_arg)) :: rest =>
      match consume_optional action option_string explicit_arg rest with
      | inl message => inl (exit_error message)
      | inr (action_tuples, arg_count) =>
          match take_actions st action_tuples with
          | inl e => inl e
          | inr st' =>
              match arg_count, rest with
              | S _, _ :: rest' => consume rest' st' extras
              | _, _ => consume rest st' extras
              end
          end
      end
  end.

(** The required actions that were not seen, by name. *)
Definition required_actions (seen_actions : list Action) : list string :=
  List.map get_action_name
    (List.filter
       (fun action => required action && negb (bool_decide (action ∈ seen_actions)))
       (actions parser)).

(** [parse_known_args]: the namespace and the extras, or the exit. *)
Definition parse_known_args (args : list string)
  : SystemExit + (Namespace * list string) :=
  match arg_strings_pattern args with
  | inl message => inl (exit_error message)
  | inr patterns =>
      match consume patterns (∅, []) [] with
      | inl e => inl e
      | inr ((namespace, seen_actions), extras) =>
          match required_actions seen_actions with
          | [] => inr (namespace, extras)
          | names => inl (exit_error (arguments_required names))
          end
      end
  end.

(** [parse_args]. *)
Definition parse_args (args : list string) : SystemExit + Namespace :=
  match parse_known_args args with
  | inl e => inl e
  | inr (namespace, []) => inr namespace
  | inr (_, argv) => inl (exit_error (unrecognized_arguments argv))
  end.

(** *** The command line, as the user wrote it

    The action an argument string selects, when [_parse_optional] takes it
    for one of the parser's options. *)
Definition selected (arg_string : string) : option Action :=
  match parse_optional arg_string with
  | inr (Some (Some action, _, _)) => Some action
  | _ => None
  end.

(** The actions selected by the argument strings, up to the first [--]. *)
Fixpoint selected_actions (arg_strings : list string) : list Action :=
  match arg_strings with
  | [] => []
  | arg_string :: rest =>
      if String.eqb arg_string "--" then []
      else match selected arg_string with
           | Some action => action :: selected_actions rest
           | None => selected_actions rest
           end
  end.

(** An option of the action is on the command line; when none is, the
    flag is missing. *)
Definition supplied (action : Action) (arg_strings : list string) : bool :=
  bool_decide (action ∈ selected_actions arg_strings).

(** [-h] or [--help] (or an abbreviation of it) is on the command line. *)
Definition help_requested (arg_strings : list string) : bool :=
  existsb (fun action => bool_decide (action_class action = HelpAction))
          (selected_actions arg_strings).

(** The actions that the options of a pattern list select. *)
Fixpoint pattern_actions (patterns : list (string * Pattern)) : list Action :=
  match patterns with
  | [] => []
  | (_, O (Some action, _, _)) :: rest => action :: pattern_actions rest
  | _ :: rest => pattern_actions rest
  end.

(** The loop keeps this: every action seen has its destination set. *)
Definition seen_set (st : ParseState) : Prop :=
  forall action, action ∈ snd st -> is_Some (fst st !! dest action).

End Parsing.

End Argparse.


(** ** Files and text

    The host as the script sees it.  A path is a byte string; several
    paths may lead to the same file ([in.fbs] and [./in.fbs], a link and its
    target), and [resolve] gives the file that a path leads to.  The content
    of a file is a byte string.  Text is a list of code points, the [str] of
    Python 3: a file opened in text mode is decoded when read and encoded
    when written, with the codec of the host's locale, and its line endings
    are translated. *)

Module Os.

Inductive Errno := ENOENT | EACCES | EISDIR | ENOSPC.

(** The exceptions the script can end with.  [IOError] is the [OSError] of
    an [open], which names the file; [OSError] is the one of a write, which
    does not. *)
Inductive Exception :=
| IOError (errno : Errno) (filename : string)
| OSError (errno : Errno)
| shutil_Error (src dst : string)
| TypeError
| UnicodeDecodeError
| UnicodeEncodeError.

(** Text: code points. *)
Definition Text : Type := list N.

(** The text of an ASCII literal of the source. *)
Definition text (literal : string) : Text :=
  List.map N_of_ascii (list_ascii_of_string literal).

Definition CR : N := 13.
Definition LF : N := 10.

(** What the host is made of:
    - [files]: the content of each file that exists, by file;
    - [refuse_read]: the files that exist and that the host refuses to open
      for reading, with the error it gives;
    - [refuse_write]: the files, there or not, that the host refuses to open
      for writing, with the error it gives ([EACCES] without the permission,
      [ENOENT] in a directory that does not exist, [EISDIR] for a directory);
    - [limit]: the size beyond which the host refuses to let a file grow,
      for the files that have one (a full device, a quota);
    - [resolve]: the file that a path leads to;
    - [fsdecode]: the text of a command-line argument, [os.fsdecode];
    - [decode], [encode]: the codec of the locale, [None] when it fails;
    - [linesep]: [os.linesep]. *)
Record FileSystem := mkFileSystem {
  files : gmap string string;
  refuse_read : gmap string Errno;
  refuse_write : gmap string Errno;
  limit : gmap string nat;
  resolve : string -> string;
  fsdecode : string -> Text;
  decode : string -> option Text;
  encode : Text -> option string;
  linesep : Text
}.

Definition set_files (fs : FileSystem) (m : gmap string string) : FileSystem :=
  mkFileSystem m (refuse_read fs) (refuse_write fs) (limit fs) (resolve fs)
    (fsdecode fs) (decode fs) (encode fs) (linesep fs).

(** Code that reads and writes files and may raise: the file system is
    threaded through, and what was written before an exception stays. *)
Definition IO (T : Type) : Type := FileSystem -> (Exception + T) * FileSystem.

Definition ret {T} (x : T) : IO T := fun fs => (inr x, fs).

Definition raise {T} (e : Exception) : IO T := fun fs => (inl e, fs).

Definition bind {T U} (m : IO T) (k : T -> IO U) : IO U :=
  fun fs =>
    match m fs with
    | (inl e, fs') => (inl e, fs')
    | (inr x, fs') => k x fs'
    end.

#[global] Instance IO_ret : MRet IO := @ret.

#[global] Instance IO_bind : MBind IO := fun T U k m => bind m k.

Inductive Mode := mode_r | mode_rb | mode_wb | mode_a.

(** A file object: the name it was opened with, and the file that the name
    led to; [with] closes it on every way out of its block. *)
Record File := mkFile { name : string; node : string }.

(** The content of a file, empty when there is none. *)
Definition content (fs : FileSystem) (file : string) : string :=
  default EmptyString (files fs !! file).

(** [open(name, mode)].  Reading needs the file to exist and the host to
    allow it.  Writing creates the file when it is missing; [wb] truncates
    it, [a] keeps what it holds. *)
Definition open (name : string) (mode : Mode) : IO File :=
  fun fs =>
    let file := resolve fs name in
    match mode with
    | mode_r | mode_rb =>
        match files fs !! file with
        | None => (inl (IOError ENOENT name), fs)
        | Some _ =>
            match refuse_read fs !! file with
            | Some errno => (inl (IOError errno name), fs)
            | None => (inr (mkFile name file), fs)
            end
        end
    | mode_wb =>
        match refuse_write fs !! file with
        | Some errno => (inl (IOError errno name), fs)
        | None =>
            (inr (mkFile name file), set_files fs (<[file := EmptyString]> (files fs)))
        end
    | mode_a =>
        match refuse_write fs !! file with
        | Some errno => (inl (IOError errno name), fs)
        | None =>
            (inr (mkFile name file),
             set_files fs (<[file := content fs file]> (files fs)))
        end
    end.

(** The bytes of [data] that the host takes at the end of a file that holds
    [old]: all of them, or as many as the limit allows. *)
Definition accepted (fs : FileSystem) (file : string) (old data : string) : string :=
  match limit fs !! file with
  | Some size => substring 0 (size - String.length old) data
  | None => data
  end.

(** Bytes sent to the end of a file.  The bytes that the host takes are
    there afterwards; when it does not take them all, the write, or the
    [close] that flushes it, raises [OSError]. *)
Definition write_bytes (f : File) (data : string) : IO unit :=
  fun fs =>
    let old := content fs (node f) in
    let written := accepted fs (node f) old data in
    let fs' := set_files fs (<[node f := old +:+ written]> (files fs)) in
    if String.eqb written data then (inr tt, fs') else (inl (OSError ENOSPC), fs').

(** [f.read()] on a file opened with [rb]: all the bytes of the file. *)
Definition read_bytes (f : File) : IO string :=
  fun fs => (inr (content fs (node f)), fs).

(** Universal newlines, the translation of a text file that is read:
    [\r\n] and [\r] become [\n]. *)
Fixpoint universal_newlines (s : Text) : Text :=
  match s with
  | [] => []
  | c :: rest =>
      if N.eqb c CR then
        match rest with
        | d :: rest' =>
            if N.eqb d LF then LF :: universal_newlines rest'
            else LF :: universal_newlines rest
        | [] => [LF]
        end
      else c :: universal_newlines rest
  end.

(** The translation of a text file that is written: [\n] becomes
    [os.linesep]. *)
Definition to_linesep (linesep : Text) (s : Text) : Text :=
  flat_map (fun c => if N.eqb c LF then linesep else [c]) s.

(** [f.read()] on a file opened with [r]: the bytes of the file, decoded,
    and the line endings translated. *)
Definition read (f : File) : IO Text :=
  fun fs =>
    match decode fs (content fs (node f)) with
    | None => (inl UnicodeDecodeError, fs)
    | Some s => (inr (universal_newlines s), fs)
    end.

(** [f.write(s)] on a file opened with [a]: the line endings translated,
    the text encoded, and the bytes sent to the end of the file. *)
Definition write (f : File) (s : Text) : IO unit :=
  fun fs =>
    match encode fs (to_linesep (linesep fs) s) with
    | None => (inl UnicodeEncodeError, fs)
    | Some data => write_bytes f data fs
    end.

(** [shutil._samefile]: [os.path.samefile], which compares the files that
    the two paths lead to, and [False] when a path cannot be examined. *)
Definition samefile (src dst : string) : IO bool :=
  fun fs =>
    (inr (bool_decide (resolve fs src = resolve fs dst)
          && bool_decide (is_Some (files fs !! resolve fs src))), fs).

Definition copyfileobj (fsrc fdst : File) : IO unit :=
  buf ← read_bytes fsrc; write_bytes fdst buf.

(** [shutil.copyfile]. *)
Definition copyfile (src dst : string) : IO unit :=
  same ← samefile src dst;
  if (same : bool) then raise (shutil_Error src dst)
  else
    fsrc ← open src mode_rb;
    fdst ← open dst mode_wb;
    copyfileobj fsrc fdst.

(** A property of the host, read. *)
Definition host {T} (field : FileSystem -> T) : IO T :=
  fun fs => (inr (field fs), fs).

(** The host lets a file hold [size] bytes. *)
Definition fits (fs : FileSystem) (file : string) (size : nat) : bool :=
  match limit fs !! file with
  | Some most => Nat.leb size most
  | None => true
  end.

End Os.

(** ** generate_entity_schema.py *)

Module GenerateEntitySchema.

Import Argparse Os.

(** The parser that [main] builds. *)
Definition parser : ArgumentParser_ :=
  let parser := ArgumentParser "Create an entity schema fbs." in
  let parser := add_argument ["--infile"; "-i"] "Input component fbs file." true parser in
  let parser := add_argument ["--appendfile"; "-x"] "Entity schema file." true parser in
  let parser := add_argument ["--outfile"; "-o"] "Output entity fbs file." true parser in
  let parser :=
    add_argument ["--identifier"]
      "file_identifier of the resulting flatbuffer type." true parser in
  parser.

(** A namespace attribute used as a file name: a string, or [TypeError]. *)
Definition filename (v : option Value) : IO string :=
  match v with
  | Some (Str s) => ret s
  | _ => raise TypeError
  end.

(** [str(v)], which [%s] applies to its operand.  The namespace keeps an
    argument as the bytes that the host passed; its text is their
    [fsdecode]. *)
Definition str (fsdecode : string -> Text) (v : option Value) : Text :=
  match v with
  | Some (Str s) => fsdecode s
  | Some EmptyList => text "[]"
  | None => text "None"
  end.

(** [template % v] for a template with one conversion, [%s]: the text before
    it, the text of [v], the text after it. *)
Fixpoint percent (template : Text) (v : Text) : Text :=
  match template with
  | [] => []
  | c :: rest =>
      match rest with
      | d :: rest' =>
          if N.eqb c 37 && N.eqb d 115 then v ++ rest' else c :: percent rest v
      | [] => [c]
      end
  end.

(** The template ['file_identifier "%s";']. *)
Definition template : Text :=
  text ("file_identifier " +:+ String dquote ("%s" +:+ String dquote ";")).

(** The declaration the spec describes: [file_identifier], the identifier
    between double quotes, a semicolon, and no newline. *)
Definition declaration (identifier : Text) : Text :=
  text "file_identifier " ++ text (String dquote EmptyString) ++ identifier
  ++ text (String dquote EmptyString) ++ text ";".

(** The block [with open(args.appendfile, 'r') as f: txt = f.read()]. *)
Definition read_appendfile (args : Namespace) : IO Text :=
  appendfile ← filename (args !! "appendfile");
  f ← open appendfile mode_r;
  read f.

(** The block [with open(args.outfile, 'a') as f:] and its two writes. *)
Definition append_text (args : Namespace) (txt : Text) : IO unit :=
  outfile ← filename (args !! "outfile");
  f ← open outfile mode_a;
  write f txt;;
  fsdecode ← host fsdecode;
  write f (percent template (str fsdecode (args !! "identifier"))).

(** The statements of [main] after [parse_args]. *)
Definition append_schema (args : Namespace) : IO unit :=
  src ← filename (args !! "infile");
  dst ← filename (args !! "outfile");
  copyfile src dst;;
  txt ← read_appendfile args;
  append_text args txt.

(** How the process ends: [main] returns, the parser exits, or an exception
    is not caught. *)
Inductive Termination :=
| Returned
| Exited (e : SystemExit)
| Raised (e : Exception).

Definition exit_status (t : Termination) : Z :=
  match t with
  | Returned => 0
  | Exited e => status e
  | Raised _ => 1
  end.

(** [main()], run with [sys.argv = argv] on the file system [fs]. *)
Definition main (argv : list string) (fs : FileSystem) : Termination * FileSystem :=
  match parse_args parser (tail argv) with
  | inl e => (Exited e, fs)
  | inr args =>
      match append_schema args fs with
      | (inl e, fs') => (Raised e, fs')
      | (inr _, fs') => (Returned, fs')
      end
  end.

End GenerateEntitySchema.

(** ** A host

    UTF-8, the codec of the locale on most hosts, with the [surrogateescape]
    error handler that Python applies to command-line arguments. *)

Module Utf8.

Import Os.

Definition continuation (b : N) : bool := N.leb 128 b && N.leb b 191.

Definition two_bytes (b0 b1 : N) : bool :=
  N.leb 194 b0 && N.leb b0 223 && continuation b1.

Definition three_bytes (b0 b1 b2 : N) : bool :=
  N.leb 224 b0 && N.leb b0 239 && continuation b1 && continuation b2
  && negb (N.eqb b0 224 && N.ltb b1 160)
  && negb (N.eqb b0 237 && N.ltb 159 b1).

Definition four_bytes (b0 b1 b2 b3 : N) : bool :=
  N.leb 240 b0 && N.leb b0 244 && continuation b1 && continuation b2
  && continuation b3
  && negb (N.eqb b0 240 && N.ltb b1 144)
  && negb (N.eqb b0 244 && N.ltb 143 b1).

(** The decoder; [errors] is the error handler, called on a byte that
    starts no well-formed sequence. *)
Fixpoint decode_bytes (errors : N -> option N) (bytes : list N) : option Text :=
  match bytes with
  | [] => Some []
  | b0 :: rest =>
      let escape := c ← errors b0; cons c <$> decode_bytes errors rest in
      if N.ltb b0 128 then cons b0 <$> decode_bytes errors rest
      else
        match rest with
        | b1 :: rest1 =>
            if two_bytes b0 b1
            then cons ((b0 - 192) * 64 + (b1 - 128))%N <$> decode_bytes errors rest1
            else
              match rest1 with
              | b2 :: rest2 =>
                  if three_bytes b0 b1 b2
                  then cons ((b0 - 224) * 4096 + (b1 - 128) * 64 + (b2 - 128))%N
                         <$> decode_bytes errors rest2
                  else
                    match rest2 with
                    | b3 :: rest3 =>
                        if four_bytes b0 b1 b2 b3
                        then cons ((b0 - 240) * 262144 + (b1 - 128) * 4096
                                   + (b2 - 128) * 64 + (b3 - 128))%N
                               <$> decode_bytes errors rest3
                        else escape
                    | [] => escape
                    end
              | [] => escape
              end
        | [] => escape
        end
  end.

Definition strict (b : N) : option N := None.

Definition surrogateescape (b : N) : option N := Some (56320 + b)%N.

(** [bytes.decode('utf-8')]. *)
Definition decode (data : string) : option Text :=
  decode_bytes strict (text data).

(** [os.fsdecode]. *)
Definition fsdecode (data : string) : Text :=
  default [] (decode_bytes surrogateescape (text data)).

(** The bytes of one code point; none for a surrogate. *)
Definition encode_char (c : N) : option (list N) :=
  if N.ltb c 128 then Some [c]
  else if N.ltb c 2048 then Some [192 + c / 64; 128 + c mod 64]%N
  else if N.leb 55296 c && N.leb c 57343 then None
  else if N.ltb c 65536
  then Some [224 + c / 4096; 128 + (c / 64) mod 64; 128 + c mod 64]%N
  else if N.ltb c 1114112
  then Some [240 + c / 262144; 128 + (c / 4096) mod 64; 128 + (c / 64) mod 64;
             128 + c mod 64]%N
  else None.

Fixpoint encode_chars (s : Text) : option (list N) :=
  match s with
  | [] => Some []
  | c :: rest =>
      bytes ← encode_char c; more ← encode_chars rest; Some (bytes ++ more)
  end.

(** [str.encode('utf-8')]. *)
Definition encode (s : Text) : option string :=
  bytes ← encode_chars s; Some (string_of_list_ascii (List.map ascii_of_N bytes)).

End Utf8.

(** ** Concrete inputs

    A small directory and a wildcard matcher to run [glob_files.py] on, and
    file systems and command lines to run [generate_entity_schema.py] on. *)

Module Examples.

Import Argparse Os.

(** Shell-style matching with [*] and [?]. *)
Fixpoint fnmatch (pattern : string) : string -> bool :=
  match pattern with
  | EmptyString =>
      fun name => match name with EmptyString => true | _ => false end
  | String c pattern' =>
      if Ascii.eqb c "*" then
        fix star (name : string) : bool :=
          fnmatch pattern' name ||
          match name with
          | EmptyString => false
          | String _ name' => star name'
          end
      else
        fun name =>
          match name with
          | EmptyString => false
          | String d name' =>
              (Ascii.eqb c "?" || Ascii.eqb c d) && fnmatch pattern' name'
          end
  end.

(** The entries of the directory, in enumeration order; the host separates
    path components with a backslash. *)
Definition directory : list string :=
  ["abc.txt"; "src\main.cc"; "src\util.cc"; "README"].

Definition glob (pattern : string) : list string :=
  List.filter (fnmatch pattern) directory.

Definition foo : string := "table Foo {}" +:+ String newline EmptyString.
Definition bar : string := "table Bar {}" +:+ String newline EmptyString.

(** Paths are relative to one directory, and [./] in front of a path
    changes nothing. *)
Fixpoint normpath (path : string) : string :=
  match path with
  | String "." (String "/" rest) => normpath rest
  | _ => path
  end.

(** A POSIX host with a UTF-8 locale. *)
Definition posix (files : gmap string string)
    (refuse_read refuse_write : gmap string Errno) (limit : gmap string nat) :
    FileSystem :=
  mkFileSystem files refuse_read refuse_write limit normpath
    Utf8.fsdecode Utf8.decode Utf8.encode [LF].

Definition fs0 : FileSystem :=
  posix (<["in.fbs" := foo]> (<["entity.fbs" := bar]> ∅)) ∅ ∅ ∅.

(** Scenario 3 of the spec. *)
Definition argv0 : list string :=
  ["generate_entity_schema.py"; "--infile"; "in.fbs"; "--appendfile"; "entity.fbs";
   "--outfile"; "out.fbs"; "--identifier"; "FOOX"].

Definition args0 : Namespace :=
  <["infile" := Str "in.fbs"]>
    (<["appendfile" := Str "entity.fbs"]>
       (<["outfile" := Str "out.fbs"]> (<["identifier" := Str "FOOX"]> ∅))).

(** The bytes of the declaration of [FOOX]. *)
Definition foox : string :=
  "file_identifier " +:+ String dquote ("FOOX" +:+ String dquote ";").

(** The file system that the run of scenario 3 leaves. *)
Definition fs_out : FileSystem :=
  set_files fs0 (<["out.fbs" := foo +:+ bar +:+ foox]> (files fs0)).

(** The append file is also the output file. *)
Definition argv_alias : list string :=
  ["generate_entity_schema.py"; "-i"; "in.fbs"; "-x"; "entity.fbs";
   "-o"; "entity.fbs"; "--identifier"; "FOOX"].

Definition args_alias : Namespace :=
  <["infile" := Str "in.fbs"]>
    (<["appendfile" := Str "entity.fbs"]>
       (<["outfile" := Str "entity.fbs"]> (<["identifier" := Str "FOOX"]> ∅))).

(** The append file does not exist. *)
Definition argv_noappend : list string :=
  ["generate_entity_schema.py"; "-i"; "in.fbs"; "-x"; "missing.fbs";
   "-o"; "out.fbs"; "--identifier"; "FOOX"].

Definition args_noappend : Namespace :=
  <["infile" := Str "in.fbs"]>
    (<["appendfile" := Str "missing.fbs"]>
       (<["outfile" := Str "out.fbs"]> (<["identifier" := Str "FOOX"]> ∅))).

(** The append file does not exist and is also the output file. *)
Definition argv_new : list string :=
  ["generate_entity_schema.py"; "-i"; "in.fbs"; "-x"; "new.fbs";
   "-o"; "new.fbs"; "--identifier"; "FOOX"].

Definition args_new : Namespace :=
  <["infile" := Str "in.fbs"]>
    (<["appendfile" := Str "new.fbs"]>
       (<["outfile" := Str "new.fbs"]> (<["identifier" := Str "FOOX"]> ∅))).

(** Scenario 4 of the spec: no [--infile]. *)
Definition argv_noinfile : list string :=
  ["generate_entity_schema.py"; "--appendfile"; "entity.fbs";
   "--outfile"; "out.fbs"; "--identifier"; "FOOX"].

(** No required flag, and a request for help. *)
Definition argv_help : list string := ["generate_entity_schema.py"; "--help"].

(** The action that [--infile/-i] registers. *)
Definition infile_action : Action :=
  mkAction ["--infile"; "-i"] "infile" StoreAction true "Input component fbs file.".

(** The append file and the output file are one file under two names. *)
Definition argv_two_names : list string :=
  ["generate_entity_schema.py"; "-i"; "in.fbs"; "-x"; "./entity.fbs";
   "-o"; "entity.fbs"; "--identifier"; "FOOX"].

Definition args_two_names : Namespace :=
  <["infile" := Str "in.fbs"]>
    (<["appendfile" := Str "./entity.fbs"]>
       (<["outfile" := Str "entity.fbs"]> (<["identifier" := Str "FOOX"]> ∅))).

(** An input file whose line ends with a carriage return and a line feed. *)
Definition foo_crlf : string :=
  "table Foo {}" +:+ String "013"%char (String newline EmptyString).

Definition fs_crlf : FileSystem :=
  posix (<["in.fbs" := foo_crlf]> (<["entity.fbs" := bar]> ∅)) ∅ ∅ ∅.

End Examples.
(** ** Further definitions: counting, and command lines written as pairs *)

(** The number of occurrences of a character. *)
Fixpoint occurrences (c : ascii) (s : string) : nat :=
  match s with
  | EmptyString => 0
  | String c' s' => (if Ascii.eqb c c' then 1 else 0) + occurrences c s'
  end.

(** A command line as users write it: flags, each followed by its value.
    The definitions say what such a command line stores, in the terms of
    [Argparse]. *)

Module CommandLine.

Import Argparse.

Section Flags.

Variable parser : ArgumentParser_.

(** The store action that a flag selects, written in full or abbreviated,
    with the option string that [_parse_optional] found for it. *)
Definition flag_tuple (flag : string) : option (Action * string) :=
  match parse_optional parser flag with
  | inr (Some (Some action, option_string, None)) =>
      match action_class action with
      | StoreAction => Some (action, option_string)
      | HelpAction => None
      end
  | _ => None
  end.

Definition store_flag (flag : string) : option Action :=
  option_map fst (flag_tuple flag).

(** A flag that selects the help action. *)
Definition help_flag (flag : string) : bool :=
  negb (String.eqb flag "--") &&
  match parse_optional parser flag with
  | inr (Some (Some action, _, None)) =>
      bool_decide (action_class action = HelpAction)
  | _ => false
  end.

(** A flag of a store action, then a value that does not start with a
    dash. *)
Definition well_formed (pair : string * string) : bool :=
  negb (String.eqb (fst pair) "--")
  && bool_decide (is_Some (flag_tuple (fst pair)))
  && negb (starts_with_dash (snd pair)).

(** The command line that writes the pairs one after the other. *)
Definition command_line (pairs : list (string * string)) : list string :=
  flat_map (fun pair => [fst pair; snd pair]) pairs.

(** What a pair stores, and what the pairs store from left to right. *)
Definition store (namespace : Namespace) (pair : string * string) : Namespace :=
  match store_flag (fst pair) with
  | Some action => <[dest action := Str (snd pair)]> namespace
  | None => namespace
  end.

Definition stored (pairs : list (string * string)) : Namespace :=
  fold_left store pairs ∅.

(** The actions of the flags, in the order of the command line. *)
Definition flags_seen (pairs : list (string * string)) : list Action :=
  omap (fun pair => store_flag (fst pair)) pairs.

(** The patterns of a pair. *)
Definition pair_patterns (pair : string * string) : list (string * Pattern) :=
  match flag_tuple (fst pair) with
  | Some (action, option_string) =>
      [(fst pair, O (Some action, option_string, None)); (snd pair, A)]
  | None => []
  end.

End Flags.

End CommandLine.


(** More inputs to run the scripts on. *)

Module Inputs.

Import Argparse Os.

Definition infile_action : Action :=
  mkAction ["--infile"; "-i"] "infile" StoreAction true "Input component fbs file.".

Definition appendfile_action : Action :=
  mkAction ["--appendfile"; "-x"] "appendfile" StoreAction true "Entity schema file.".

Definition outfile_action : Action :=
  mkAction ["--outfile"; "-o"] "outfile" StoreAction true "Output entity fbs file.".

Definition identifier_action : Action :=
  mkAction ["--identifier"] "identifier" StoreAction true
           "file_identifier of the resulting flatbuffer type.".

(** The flags and values of scenario 3 of the spec. *)
Definition pairs0 : list (string * string) :=
  [("--infile", "in.fbs"); ("--appendfile", "entity.fbs");
   ("--outfile", "out.fbs"); ("--identifier", "FOOX")].

(** The same, the flags short or abbreviated. *)
Definition pairs_short : list (string * string) :=
  [("-i", "in.fbs"); ("--app", "entity.fbs"); ("-o", "out.fbs"); ("--id", "FOOX")].

(** The files of [Examples.fs0], the input file unreadable. *)
Definition fs_unreadable : FileSystem :=
  Examples.posix (files Examples.fs0) {["in.fbs" := EACCES]} ∅ ∅.

(** The output path in a directory that does not exist. *)
Definition fs_unwritable : FileSystem :=
  Examples.posix (files Examples.fs0) ∅ {["out.fbs" := ENOENT]} ∅.

(** The input file is also the output file. *)
Definition argv_in_place : list string :=
  ["generate_entity_schema.py"; "-i"; "in.fbs"; "-x"; "entity.fbs";
   "-o"; "in.fbs"; "--identifier"; "FOOX"].

Definition args_in_place : Namespace :=
  <["infile" := Str "in.fbs"]>
    (<["appendfile" := Str "entity.fbs"]>
       (<["outfile" := Str "in.fbs"]> (<["identifier" := Str "FOOX"]> ∅))).

End Inputs.
(** * Properties *)

(** ** Strings *)

Lemma append_nil_l (s : string) : EmptyString +:+ s = s.
Proof. reflexivity. Qed.

Lemma append_cons (c : ascii) (s t : string) :
  String c s +:+ t = String c (s +:+ t).
Proof. reflexivity. Qed.

Lemma append_nil_r (s : string) : s +:+ EmptyString = s.
Proof.
  induction s as [|c s IH]; [reflexivity|].
  now rewrite append_cons, IH.
Qed.

Lemma append_assoc (s t u : string) : (s +:+ t) +:+ u = s +:+ t +:+ u.
Proof.
  induction s as [|c s IH]; [reflexivity|].
  now rewrite !append_cons, IH.
Qed.

Lemma length_append (s t : string) :
  String.length (s +:+ t) = String.length s + String.length t.
Proof.
  induction s as [|c s IH]; [reflexivity|].
  rewrite append_cons. simpl. now rewrite IH.
Qed.

Lemma append_inj_l (s t u : string) : s +:+ t = s +:+ u -> t = u.
Proof.
  induction s as [|c s IH]; intros H; [assumption|].
  rewrite !append_cons in H. injection H as H. now apply IH.
Qed.

Lemma append_inj_r (s t u : string) : s +:+ u = t +:+ u -> s = t.
Proof.
  revert t. induction s as [|c s IH]; intros [|d t] H;
    rewrite ?append_cons, ?append_nil_l in H.
  - reflexivity.
  - apply (f_equal String.length) in H. simpl in H.
    rewrite length_append in H. lia.
  - apply (f_equal String.length) in H. simpl in H.
    rewrite length_append in H. lia.
  - injection H as -> H. f_equal. now apply IH.
Qed.

Lemma replace_append (old new : ascii) (s t : string) :
  replace old new (s +:+ t) = replace old new s +:+ replace old new t.
Proof.
  induction s as [|c s IH]; [reflexivity|].
  rewrite append_cons. simpl. now rewrite append_cons, IH.
Qed.

Lemma replace_absent (old new : ascii) (s : string) :
  contains old s = false -> replace old new s = s.
Proof.
  induction s as [|c s IH]; simpl; [reflexivity|].
  intros H. apply orb_false_iff in H as [Hc Hs].
  rewrite Ascii.eqb_sym, Hc. now rewrite IH.
Qed.

Lemma contains_replace (old new : ascii) (s : string) :
  old <> new -> contains old (replace old new s) = false.
Proof.
  intros Hne. induction s as [|c s IH]; simpl; [reflexivity|].
  rewrite IH, orb_false_r.
  destruct (Ascii.eqb c old) eqn:Hc.
  - now apply Ascii.eqb_neq.
  - now rewrite Ascii.eqb_sym.
Qed.

Lemma contains_append (c : ascii) (s t : string) :
  contains c (s +:+ t) = contains c s || contains c t.
Proof.
  induction s as [|d s IH]; [reflexivity|].
  rewrite append_cons. simpl. now rewrite IH, orb_assoc.
Qed.

(** ** argparse: what the loop does with the options of the command line *)

Section ParsingFacts.

Import Argparse.
Variable parser : ArgumentParser_.

(** After [--] no string selects an action. *)
Lemma pattern_actions_map_A (l : list string) :
  pattern_actions (List.map (fun s => (s, A)) l) = [].
Proof. induction l; simpl; auto. Qed.

(** The options of the pattern list are the actions the command line
    selects. *)
Lemma arg_strings_pattern_actions (arg_strings : list string) patterns :
  arg_strings_pattern parser arg_strings = inr patterns ->
  pattern_actions patterns = selected_actions parser arg_strings.
Proof.
  revert patterns. induction arg_strings as [|s rest IH]; intros patterns H; simpl in H.
  - injection H as <-. reflexivity.
  - simpl. destruct (String.eqb s "--").
    + injection H as <-. simpl. apply pattern_actions_map_A.
    + unfold selected.
      destruct (parse_optional parser s) as [m|parsed]; [discriminate|].
      destruct (arg_strings_pattern parser rest) as [m|ps]; [discriminate|].
      injection H as <-.
      destruct parsed as [[[[a|] os] e]|]; simpl; rewrite (IH ps); auto.
Qed.

(** The tuples [consume_optional] returns start with the action of the
    option; a store action is alone. *)
Lemma consume_following_inv action os acc following tuples n :
  consume_following action os acc following = inr (tuples, n) ->
  exists args, tuples = acc ++ [(action, args, os)].
Proof.
  unfold consume_following.
  destruct (match_argument action (List.map snd following)); [|discriminate].
  intros H. injection H as <- <-. eauto.
Qed.

Lemma consume_explicit_inv e : forall action os acc following tuples n,
  consume_explicit parser action os e acc following = inr (tuples, n) ->
  exists args rest,
    tuples = acc ++ (action, args, os) :: rest
    /\ (action_class action = StoreAction -> rest = []).
Proof.
  induction e as [|c e IH]; intros action os acc following tuples n H.
  - simpl in H. unfold match_argument in H.
    destruct (action_class action) eqn:Hc; [|discriminate].
    injection H as <- <-. eauto.
  - simpl in H. unfold match_argument in H.
    destruct (action_class action) eqn:Hc.
    + injection H as <- <-. eauto.
    + destruct (negb (String.prefix "--" os)); [|discriminate].
      destruct (option_string_action parser (String "-" (String c ""))) as [action'|];
        [|discriminate].
      destruct e as [|c' e'].
      * apply consume_following_inv in H as [args ->].
        rewrite <- List.app_assoc. simpl. eexists _, _. split; [reflexivity|discriminate].
      * apply IH in H as (args & rest & -> & _).
        rewrite <- List.app_assoc. simpl. eexists _, _. split; [reflexivity|discriminate].
Qed.

Lemma consume_optional_inv action os e following tuples n :
  consume_optional parser action os e following = inr (tuples, n) ->
  exists args rest,
    tuples = (action, args, os) :: rest
    /\ (action_class action = StoreAction -> rest = []).
Proof.
  unfold consume_optional. destruct e as [e|]; intros H.
  - apply consume_explicit_inv in H. exact H.
  - apply consume_following_inv in H as [args ->]. simpl. eauto.
Qed.

(** The only exit an action makes is the help. *)
Lemma take_actions_exit st tuples e :
  take_actions st tuples = inl e -> e = exit_help.
Proof.
  revert st. induction tuples as [|[[a args] os] tuples IH]; intros [ns seen] H;
    simpl in H; [discriminate|].
  destruct (action_class a); [|now injection H].
  eapply IH, H.
Qed.

(** Taking the tuples of one optional either prints the help, for the help
    action, or sets the destination of a store action and records it. *)
Lemma take_optional action os e following tuples n st :
  consume_optional parser action os e following = inr (tuples, n) ->
  match take_actions st tuples with
  | inl e => e = exit_help /\ action_class action = HelpAction
  | inr st' =>
      action_class action = StoreAction
      /\ snd st' = snd st ++ [action]
      /\ exists v, fst st' = <[dest action := v]> (fst st)
  end.
Proof.
  intros H. apply consume_optional_inv in H as (args & rest & -> & Hrest).
  destruct st as [ns seen]. simpl.
  destruct (action_class action) eqn:Hc.
  - rewrite (Hrest eq_refl). simpl. eauto.
  - auto.
Qed.


Lemma pattern_actions_cons p patterns action :
  action ∈ pattern_actions patterns -> action ∈ pattern_actions (p :: patterns).
Proof.
  destruct p as [s [[[[a|] os] e]| |]]; simpl; auto.
  intros H. apply elem_of_cons; now right.
Qed.

(** The outcome of the main loop, in terms of the options on the command
    line: help is printed only when an option selects the help action, and
    an action is seen only when an option selects it. *)
Lemma consume_inv (patterns : list (string * Pattern)) :
  forall (st : ParseState) (extras : list string),
  match consume parser patterns st extras with
  | inl exit_help =>
      exists action, action ∈ pattern_actions patterns
                     /\ action_class action = HelpAction
  | inl (exit_error _) => True
  | inr (st', _) =>
      forall action, action ∈ snd st' ->
                     action ∈ snd st \/ action ∈ pattern_actions patterns
  end.
Proof.
  remember (length patterns) as n eqn:Hn. revert patterns Hn.
  induction n as [n IH] using lt_wf_ind. intros patterns Hn st extras.
  destruct patterns as [|[s p] rest]; [simpl; auto|].
  assert (Hskip : forall st1 extras1,
    match consume parser rest st1 extras1 with
    | inl exit_help =>
        exists action, action ∈ pattern_actions ((s, p) :: rest)
                       /\ action_class action = HelpAction
    | inl (exit_error _) => True
    | inr (st', _) =>
        forall action, action ∈ snd st' ->
                       action ∈ snd st1 \/ action ∈ pattern_actions ((s, p) :: rest)
    end).
  { intros st1 extras1.
    pose proof (IH (length rest) ltac:(simpl in Hn; lia) rest eq_refl st1 extras1) as H.
    destruct (consume parser rest st1 extras1) as [[|m]|[st' ex']]; [| exact I |].
    - destruct H as (a & Ha & Hc). exists a. split; [|exact Hc].
      now apply pattern_actions_cons.
    - intros a Ha. destruct (H a Ha) as [?|?]; [now left|right].
      now apply pattern_actions_cons. }
  destruct p as [[[[action|] os] e]| |]; try (simpl; apply Hskip).
  simpl.
  destruct (consume_optional parser action os e rest) as [m|[tuples arg_count]] eqn:Hopt;
    [exact I|].
  pose proof (take_optional action os e rest tuples arg_count st Hopt) as Htake.
  destruct (take_actions st tuples) as [e'|st1].
  - destruct Htake as [-> Hc]. exists action. split; [(apply elem_of_cons; now left) | exact Hc].
  - destruct Htake as (Hc & Hseen & _).
    assert (Hgoal : forall rest0, length rest0 <= length rest ->
      (forall a, a ∈ pattern_actions rest0 -> a ∈ pattern_actions rest) ->
      match consume parser rest0 st1 extras with
      | inl exit_help =>
          exists a, a ∈ action :: pattern_actions rest /\ action_class a = HelpAction
      | inl (exit_error _) => True
      | inr (st', _) =>
          forall a, a ∈ snd st' -> a ∈ snd st \/ a ∈ action :: pattern_actions rest
      end).
    { intros rest0 Hlen Hsub.
      pose proof (IH (length rest0) ltac:(simpl in Hn; lia) rest0 eq_refl st1 extras) as H.
      destruct (consume parser rest0 st1 extras) as [[|m]|[st' ex']]; [| exact I |].
      - destruct H as (a & Ha & Hca). exists a. split; [|exact Hca].
        apply elem_of_cons; right. now apply Hsub.
      - intros a Ha. destruct (H a Ha) as [Hin|Hin].
        + rewrite Hseen in Hin. apply elem_of_app in Hin as [?|Hin]; [now left|].
          apply list_elem_of_singleton in Hin as ->. right. (apply elem_of_cons; now left).
        + right. apply elem_of_cons; right. now apply Hsub. }
    destruct arg_count as [|k]; [apply Hgoal; auto|].
    destruct rest as [|p' rest']; [apply Hgoal; auto|].
    apply Hgoal; [simpl; lia|]. intros a. apply pattern_actions_cons.
Qed.


(** A required action that was not seen is reported. *)
Lemma required_actions_missing (action : Action) (seen : list Action) :
  action ∈ actions parser -> required action = true -> action ∉ seen ->
  required_actions parser seen <> [].
Proof.
  intros Hin Hreq Hseen. unfold required_actions.
  induction (actions parser) as [|a l IH]; [now apply elem_of_nil in Hin|].
  apply elem_of_cons in Hin as [<-|Hin]; simpl.
  - rewrite Hreq, bool_decide_eq_false_2 by assumption. discriminate.
  - destruct (required a && negb (bool_decide (a ∈ seen))); [discriminate|].
    now apply IH.
Qed.

(** With a required flag missing, [parse_args] does not return: it reports
    an error, or prints the help when help is requested. *)
Lemma parse_args_missing (action : Action) (args : list string) :
  action ∈ actions parser -> required action = true ->
  supplied parser action args = false ->
  match parse_args parser args with
  | inl exit_help => help_requested parser args = true
  | inl (exit_error _) => True
  | inr _ => False
  end.
Proof.
  intros Hin Hreq Hmissing. apply bool_decide_eq_false in Hmissing.
  unfold parse_args, parse_known_args.
  destruct (arg_strings_pattern parser args) as [m|patterns] eqn:Hpat; [exact I|].
  apply arg_strings_pattern_actions in Hpat.
  pose proof (consume_inv patterns (∅, []) []) as Hloop. rewrite Hpat in Hloop.
  destruct (consume parser patterns (∅, []) []) as [[|m]|[[ns seen] extras]];
    [| exact I |].
  - destruct Hloop as (a & Ha & Hc). unfold help_requested.
    apply existsb_exists. exists a. split; [now apply list_elem_of_In|].
    now apply bool_decide_eq_true.
  - assert (Hseen : action ∉ seen).
    { intros Hs. destruct (Hloop action Hs) as [H|H]; [|contradiction].
      simpl in H. now apply elem_of_nil in H. }
    pose proof (required_actions_missing action seen Hin Hreq Hseen) as Hne.
    destruct (required_actions parser seen); [contradiction | exact I].
Qed.

(** *** When the parser returns *)

(** The loop keeps [seen_set]. *)
Lemma consume_seen_set (patterns : list (string * Pattern)) :
  forall (st : ParseState) (extras : list string),
  seen_set st ->
  match consume parser patterns st extras with
  | inl _ => True
  | inr (st', _) => seen_set st'
  end.
Proof.
  remember (length patterns) as n eqn:Hn. revert patterns Hn.
  induction n as [n IH] using lt_wf_ind. intros patterns Hn st extras Hst.
  destruct patterns as [|[s p] rest]; [exact Hst|].
  assert (Hrest : forall rest0 st1 extras1,
             length rest0 <= length rest -> seen_set st1 ->
             match consume parser rest0 st1 extras1 with
             | inl _ => True
             | inr (st', _) => seen_set st'
             end).
  { intros rest0 st1 extras1 Hlen. apply (IH (length rest0)); [simpl in Hn; lia | reflexivity]. }
  destruct p as [[[[action|] os] e]| |]; try (simpl; now apply Hrest).
  simpl.
  destruct (consume_optional parser action os e rest) as [m|[tuples arg_count]] eqn:Hopt;
    [exact I|].
  pose proof (take_optional action os e rest tuples arg_count st Hopt) as Htake.
  destruct (take_actions st tuples) as [e'|st1]; [exact I|].
  destruct Htake as (_ & Hseen & v & Hns).
  assert (Hst1 : seen_set st1).
  { intros a Ha. rewrite Hseen in Ha. rewrite Hns.
    apply elem_of_app in Ha as [Ha|Ha].
    - apply lookup_insert_is_Some. destruct (decide (dest action = dest a)); [now left|].
      right. split; [assumption | now apply Hst].
    - apply list_elem_of_singleton in Ha as ->. rewrite lookup_insert_eq. eauto. }
  destruct arg_count as [|k]; [now apply Hrest|].
  destruct rest as [|p' rest']; [now apply Hrest|].
  apply Hrest; [simpl; lia | exact Hst1].
Qed.

Lemma required_actions_nil (seen : list Action) (action : Action) :
  required_actions parser seen = [] ->
  action ∈ actions parser -> required action = true -> action ∈ seen.
Proof.
  unfold required_actions. intros Hnil Hin Hreq.
  destruct (decide (action ∈ seen)) as [?|Hnot]; [assumption|].
  exfalso.
  induction (actions parser) as [|a l IH]; [now apply elem_of_nil in Hin|].
  simpl in Hnil.
  apply elem_of_cons in Hin as [<-|Hin].
  - rewrite Hreq, bool_decide_eq_false_2 in Hnil by assumption. discriminate.
  - destruct (required a && negb (bool_decide (a ∈ seen))); [discriminate|].
    now apply IH.
Qed.

(** When [parse_args] returns, every required action has set its destination. *)
Lemma parse_args_returns (args : list string) (namespace : Namespace) (action : Action) :
  parse_args parser args = inr namespace ->
  action ∈ actions parser -> required action = true ->
  is_Some (namespace !! dest action).
Proof.
  unfold parse_args, parse_known_args. intros H Hin Hreq.
  destruct (arg_strings_pattern parser args) as [m|patterns]; [discriminate|].
  pose proof (consume_seen_set patterns (∅, []) []) as Hloop.
  destruct (consume parser patterns (∅, []) []) as [e|[[ns seen] extras]]; [discriminate|].
  destruct (required_actions parser seen) eqn:Hnil; [|discriminate].
  destruct extras; [|discriminate]. injection H as <-.
  apply (Hloop ltac:(intros a Ha; now apply elem_of_nil in Ha)).
  now apply (required_actions_nil seen).
Qed.
(** *** Command lines in the plain form: a flag, then its value *)

Lemma parse_optional_plain (s : string) :
  starts_with_dash s = false -> parse_optional parser s = inr None.
Proof. intros H. unfold parse_optional. now rewrite H. Qed.

Lemma eqb_dashes_plain (s : string) :
  starts_with_dash s = false -> String.eqb s "--" = false.
Proof.
  destruct s as [|c s]; [reflexivity|]. simpl. intros H.
  rewrite H. reflexivity.
Qed.

Lemma arg_strings_pattern_plain (s : string) (rest : list string) :
  starts_with_dash s = false ->
  arg_strings_pattern parser (s :: rest)
  = match arg_strings_pattern parser rest with
    | inl message => inl message
    | inr patterns => inr ((s, A) :: patterns)
    end.
Proof.
  intros H. simpl. now rewrite (eqb_dashes_plain s H), (parse_optional_plain s H).
Qed.

Lemma arg_strings_pattern_option (s : string) (t : OptionTuple) (rest : list string) :
  String.eqb s "--" = false ->
  parse_optional parser s = inr (Some t) ->
  arg_strings_pattern parser (s :: rest)
  = match arg_strings_pattern parser rest with
    | inl message => inl message
    | inr patterns => inr ((s, O t) :: patterns)
    end.
Proof. intros H1 H2. simpl. now rewrite H1, H2. Qed.

Lemma consume_store (s os v : string) (action : Action)
    (rest : list (string * Pattern)) (ns : Namespace) (seen : list Action)
    (extras : list string) :
  action_class action = StoreAction ->
  starts_with_dash v = false ->
  consume parser ((s, O (Some action, os, None)) :: (v, A) :: rest) (ns, seen) extras
  = consume parser rest (<[dest action := Str v]> ns, seen ++ [action]) extras.
Proof.
  intros Hc Hv.
  change (consume parser ((s, O (Some action, os, None)) :: (v, A) :: rest) (ns, seen) extras)
    with (match consume_optional parser action os None ((v, A) :: rest) with
          | inl message => inl (exit_error message)
          | inr (action_tuples, arg_count) =>
              match take_actions (ns, seen) action_tuples with
              | inl e => inl e
              | inr st' =>
                  match arg_count with
                  | S _ => consume parser rest st' extras
                  | 0 => consume parser ((v, A) :: rest) st' extras
                  end
              end
          end).
  unfold consume_optional, consume_following, match_argument. rewrite Hc.
  cbn [List.map snd fst firstn app take_actions take_action]. rewrite Hc.
  unfold get_values. rewrite (eqb_dashes_plain v Hv). reflexivity.
Qed.
End ParsingFacts.

(** ** glob_files.py *)

Section CollectorFacts.

Import GlobFiles.
Variable glob : string -> list string.

Lemma collect_flat_map (files patterns : list string) :
  collect glob files patterns = files ++ flat_map glob patterns.
Proof.
  revert files. induction patterns as [|p ps IH]; intros files; simpl.
  - now rewrite app_nil_r.
  - now rewrite IH, <- app_assoc.
Qed.

Lemma replace_join (old new : ascii) (sep : string) (l : list string) :
  replace old new (join sep l)
  = join (replace old new sep) (List.map (replace old new) l).
Proof.
  induction l as [|x [|y l] IH]; [reflexivity | reflexivity |].
  change (join sep (x :: y :: l)) with (x +:+ sep +:+ join sep (y :: l)).
  rewrite !replace_append, IH. reflexivity.
Qed.

Lemma flat_map_all_nil (patterns : list string) :
  Forall (fun pattern => glob pattern = []) patterns ->
  flat_map glob patterns = [].
Proof.
  induction 1 as [|p ps Hp _ IH]; simpl; [reflexivity|].
  now rewrite Hp, IH.
Qed.

(** [join] and [replace] against the functions of the Standard Library. *)
Lemma join_concat (sep : string) (l : list string) :
  join sep l = Stdlib.Strings.String.concat sep l.
Proof.
  induction l as [|x [|y l] IH]; [reflexivity | reflexivity |].
  change (join sep (x :: y :: l)) with (x +:+ sep +:+ join sep (y :: l)).
  now rewrite IH.
Qed.

Lemma replace_map (old new : ascii) (s : string) :
  replace old new s
  = string_of_list_ascii
      (List.map (fun c => if Ascii.eqb c old then new else c) (list_ascii_of_string s)).
Proof. induction s as [|c s IH]; simpl; [reflexivity|]. now rewrite IH. Qed.

Lemma contains_In (c : ascii) (s : string) :
  contains c s = false -> ~ In c (list_ascii_of_string s).
Proof.
  induction s as [|d s IH]; simpl; [tauto|].
  intros H. apply orb_false_iff in H as [Hd Hs].
  apply Ascii.eqb_neq in Hd. intros [Heq|Hin]; [congruence|]. now apply IH.
Qed.

End CollectorFacts.

(** The scenarios of the spec, run on the directory of [Examples]. *)
Example scenario_1 :
  GlobFiles.main Examples.glob ["glob_files.py"; "a*.txt"]
  = ("abc.txt" +:+ String newline EmptyString, 0%Z).
Proof. reflexivity. Qed.

Example scenario_2 :
  GlobFiles.output_string Examples.glob ["glob_files.py"; "*.missing"] = EmptyString.
Proof. reflexivity. Qed.

Example two_patterns_with_a_duplicate :
  GlobFiles.output_string Examples.glob ["glob_files.py"; "src\*.cc"; "*main*"]
  = "src/main.cc" +:+ String newline ("src/util.cc" +:+ String newline "src/main.cc").
Proof. reflexivity. Qed.

(** C2.  Whatever the patterns on the command line, the string that
    [glob_files.py] prints is the matches of the first pattern, then those of
    the second, and so on, each match with its backslashes turned into
    slashes, joined by newlines; nothing is removed, duplicates included; no
    backslash is left in it, and [print] sends it, with its newline, to
    standard output.  The right-hand side is written with the functions of
    the Standard Library only: [concat] puts the separator between two
    consecutive strings, and [map] works character by character. *)
Theorem path_collector_output (glob : string -> list string) (argv : list string) :
  GlobFiles.output_string glob argv
  = Stdlib.Strings.String.concat (String "010"%char EmptyString)
      (List.map
         (fun path =>
            string_of_list_ascii
              (List.map (fun c => if Ascii.eqb c "\"%char then "/"%char else c)
                 (list_ascii_of_string path)))
         (flat_map glob (tail argv)))
  /\ ~ In "\"%char (list_ascii_of_string (GlobFiles.output_string glob argv))
  /\ GlobFiles.main glob argv
     = (GlobFiles.output_string glob argv +:+ String "010"%char EmptyString, 0%Z)
  /\ ~ In "\"%char (list_ascii_of_string (fst (GlobFiles.main glob argv))).
Proof.
  unfold GlobFiles.main, GlobFiles.print, GlobFiles.output_string.
  rewrite collect_flat_map. simpl app.
  split; [|split; [|split]].
  - rewrite replace_join, join_concat. f_equal.
    apply map_ext. intros path. apply replace_map.
  - apply contains_In. now apply contains_replace.
  - reflexivity.
  - simpl fst. rewrite append_nil_l. apply contains_In.
    rewrite contains_append.
    rewrite contains_replace by discriminate. reflexivity.
Qed.

(** C6.  With no pattern on the command line the printed string is empty and
    the exit status is 0. *)
Theorem path_collector_no_pattern (glob : string -> list string) (prog : string) :
  GlobFiles.output_string glob [prog] = EmptyString
  /\ GlobFiles.main glob [prog] = (String newline EmptyString, 0%Z).
Proof. split; reflexivity. Qed.

(** C7.  A pattern that matches nothing contributes no path and is no error:
    the run is the run without it, with status 0; when no pattern matches
    anything the printed string is empty. *)
Theorem path_collector_unmatched (glob : string -> list string)
    (prog pattern : string) (before after : list string) :
  glob pattern = [] ->
  GlobFiles.main glob (prog :: before ++ pattern :: after)
  = GlobFiles.main glob (prog :: before ++ after)
  /\ snd (GlobFiles.main glob (prog :: before ++ pattern :: after)) = 0%Z
  /\ (Forall (fun p => glob p = []) (before ++ after) ->
      GlobFiles.output_string glob (prog :: before ++ pattern :: after) = EmptyString
      /\ GlobFiles.main glob (prog :: before ++ pattern :: after)
         = (String newline EmptyString, 0%Z)).
Proof.
  intros Hnone.
  assert (Hsame : flat_map glob (before ++ pattern :: after)
                  = flat_map glob (before ++ after)).
  { rewrite !flat_map_app. simpl. now rewrite Hnone. }
  unfold GlobFiles.main, GlobFiles.output_string. simpl tail.
  rewrite !collect_flat_map, Hsame.
  split; [reflexivity|]. split; [reflexivity|].
  intros Hall. rewrite (flat_map_all_nil _ _ Hall). split; reflexivity.
Qed.

Lemma path_collector_unmatched_witness :
  Examples.glob "*.missing" = []
  /\ GlobFiles.main Examples.glob ["glob_files.py"; "*.missing"]
     = (String newline EmptyString, 0%Z).
Proof.
  split; [reflexivity|].
  apply (path_collector_unmatched Examples.glob "glob_files.py" "*.missing" [] []);
    [reflexivity | constructor].
Defined.

(** C9.  Replacing the backslashes of the joined string, as the code does, is
    joining the paths whose backslashes were replaced one path at a time, as
    the spec describes it: the newline between two paths is no backslash. *)
Theorem replace_after_join (paths : list string) :
  GlobFiles.code_output paths = GlobFiles.spec_output paths.
Proof.
  unfold GlobFiles.code_output, GlobFiles.spec_output, GlobFiles.normalize_path.
  now rewrite replace_join.
Qed.

(** ** Files: closed forms *)

Section FileFacts.

Import Os.

Lemma pair_fst {A B : Type} (p : A * B) (a : A) : fst p = a -> p = (a, snd p).
Proof. intros <-. now destruct p. Qed.

Lemma files_set_files (fs : FileSystem) (m : gmap string string) :
  files (set_files fs m) = m.
Proof. reflexivity. Qed.

Lemma set_files_set_files (fs : FileSystem) (m m' : gmap string string) :
  set_files (set_files fs m) m' = set_files fs m'.
Proof. reflexivity. Qed.

Lemma set_files_files (fs : FileSystem) : set_files fs (files fs) = fs.
Proof. now destruct fs. Qed.

Lemma content_set_files (fs : FileSystem) (m : gmap string string) (file : string) :
  content (set_files fs m) file = default EmptyString (m !! file).
Proof. reflexivity. Qed.

Lemma accepted_set_files (fs : FileSystem) (m : gmap string string)
    (file old data : string) :
  accepted (set_files fs m) file old data = accepted fs file old data.
Proof. reflexivity. Qed.

Lemma substring_all (s : string) (n : nat) :
  String.length s <= n -> substring 0 n s = s.
Proof.
  revert n. induction s as [|c s IH]; intros [|n] H; simpl in *;
    try reflexivity; try lia.
  rewrite IH by lia. reflexivity.
Qed.

Lemma substring_prefix (s : string) (n : nat) :
  exists rest : string, s = substring 0 n s +:+ rest.
Proof.
  revert n. induction s as [|c s IH]; intros [|n]; simpl.
  - now exists EmptyString.
  - now exists EmptyString.
  - now exists (String c s).
  - destruct (IH n) as [rest Hrest]. exists rest.
    rewrite append_cons. now rewrite <- Hrest.
Qed.

Lemma fits_le (fs : FileSystem) (file : string) (n m : nat) :
  n <= m -> fits fs file m = true -> fits fs file n = true.
Proof.
  unfold fits. destruct (limit fs !! file) as [most|]; [|reflexivity].
  intros Hle H. apply Nat.leb_le in H. apply Nat.leb_le. lia.
Qed.

(** The host takes all the bytes of a write that fits. *)
Lemma accepted_fits (fs : FileSystem) (file old data : string) :
  fits fs file (String.length (old +:+ data)) = true ->
  accepted fs file old data = data.
Proof.
  unfold fits, accepted. rewrite length_append.
  destruct (limit fs !! file) as [most|]; [|reflexivity].
  intros H. apply Nat.leb_le in H. apply substring_all. lia.
Qed.

(** Room for the copy, the text and the declaration is room for each of the
    three writes. *)
Lemma accepted_three (fs : FileSystem) (file a data line : string) :
  fits fs file (String.length (a +:+ data +:+ line)) = true ->
  accepted fs file EmptyString a = a
  /\ accepted fs file a data = data
  /\ accepted fs file (a +:+ data) line = line.
Proof.
  intros Hfit. split; [|split]; apply accepted_fits.
  - rewrite append_nil_l. eapply fits_le; [|exact Hfit].
    rewrite !length_append. lia.
  - eapply fits_le; [|exact Hfit]. rewrite !length_append. lia.
  - now rewrite append_assoc.
Qed.

(** What the host takes is the beginning of what it is sent. *)
Lemma accepted_prefix (fs : FileSystem) (file old data : string) :
  exists rest : string, data = accepted fs file old data +:+ rest.
Proof.
  unfold accepted. destruct (limit fs !! file) as [most|].
  - apply substring_prefix.
  - exists EmptyString. now rewrite append_nil_r.
Qed.

Lemma to_linesep_LF (s : Text) : to_linesep [LF] s = s.
Proof.
  unfold to_linesep. induction s as [|c s IH]; [reflexivity|].
  cbn [flat_map]. rewrite IH.
  destruct (N.eqb c LF) eqn:Hc; [|reflexivity].
  apply N.eqb_eq in Hc. now subst c.
Qed.

Lemma universal_newlines_no_CR (s : Text) :
  ~ In CR s -> universal_newlines s = s.
Proof.
  induction s as [|c s IH]; [reflexivity|]. intros Hnot.
  cbn [universal_newlines].
  destruct (N.eqb c CR) eqn:Hc.
  - apply N.eqb_eq in Hc. exfalso. apply Hnot. now left.
  - rewrite IH; [reflexivity|]. intros Hin. apply Hnot. now right.
Qed.

(** [copyfile] raises before it writes, and leaves the file system as it
    was, or sends the content of [src] to [dst]. *)
Lemma copyfile_eq (src dst : string) (fs : FileSystem) :
  copyfile src dst fs =
  match files fs !! resolve fs src with
  | None => (inl (IOError ENOENT src), fs)
  | Some a =>
      if bool_decide (resolve fs src = resolve fs dst)
      then (inl (shutil_Error src dst), fs)
      else
        match refuse_read fs !! resolve fs src with
        | Some errno => (inl (IOError errno src), fs)
        | None =>
            match refuse_write fs !! resolve fs dst with
            | Some errno => (inl (IOError errno dst), fs)
            | None =>
                (if String.eqb (accepted fs (resolve fs dst) EmptyString a) a
                 then inr tt else inl (OSError ENOSPC),
                 set_files fs
                   (<[resolve fs dst := accepted fs (resolve fs dst) EmptyString a]>
                      (files fs)))
            end
        end
  end.
Proof.
  unfold copyfile, samefile, mbind, IO_bind, bind. cbv beta iota.
  destruct (files fs !! resolve fs src) as [a|] eqn:Hsrc.
  - rewrite (bool_decide_eq_true_2 (is_Some (Some a))) by eauto.
    rewrite andb_true_r.
    destruct (bool_decide (resolve fs src = resolve fs dst)) eqn:Hsame; [reflexivity|].
    apply bool_decide_eq_false in Hsame.
    unfold open at 1. cbv zeta. rewrite Hsrc.
    destruct (refuse_read fs !! resolve fs src); [reflexivity|].
    unfold open. cbv zeta.
    destruct (refuse_write fs !! resolve fs dst); [reflexivity|].
    unfold copyfileobj, read_bytes, write_bytes, mbind, IO_bind, bind.
    cbn [node]. cbv zeta.
    rewrite !content_set_files, accepted_set_files, set_files_set_files.
    cbn [files set_files].
    rewrite lookup_insert_eq, lookup_insert_ne, Hsrc by congruence.
    cbn [default]. rewrite insert_insert_eq, append_nil_l. unfold id.
    now destruct (String.eqb _ a).
  - rewrite (bool_decide_eq_false_2 (is_Some None)) by (intros [? ?]; discriminate).
    rewrite andb_false_r. unfold open. cbv zeta. rewrite Hsrc. reflexivity.
Qed.

(** A copy that succeeded: what was there, and what it left. *)
Lemma copyfile_inr (src dst : string) (fs fs1 : FileSystem) :
  copyfile src dst fs = (inr tt, fs1) ->
  exists a : string,
    files fs !! resolve fs src = Some a
    /\ resolve fs src <> resolve fs dst
    /\ refuse_read fs !! resolve fs src = None
    /\ refuse_write fs !! resolve fs dst = None
    /\ accepted fs (resolve fs dst) EmptyString a = a
    /\ fs1 = set_files fs (<[resolve fs dst := a]> (files fs)).
Proof.
  rewrite copyfile_eq.
  destruct (files fs !! resolve fs src) as [a|]; [|discriminate].
  destruct (bool_decide (resolve fs src = resolve fs dst)) eqn:H1; [discriminate|].
  destruct (refuse_read fs !! resolve fs src); [discriminate|].
  destruct (refuse_write fs !! resolve fs dst); [discriminate|].
  destruct (String.eqb (accepted fs (resolve fs dst) EmptyString a) a) eqn:H2;
    [|discriminate].
  apply bool_decide_eq_false in H1. apply String.eqb_eq in H2.
  intros H. injection H as <-. exists a. rewrite H2. now repeat split.
Qed.

Lemma copyfile_succeeds (src dst a : string) (fs : FileSystem) :
  files fs !! resolve fs src = Some a ->
  resolve fs src <> resolve fs dst ->
  refuse_read fs !! resolve fs src = None ->
  refuse_write fs !! resolve fs dst = None ->
  accepted fs (resolve fs dst) EmptyString a = a ->
  copyfile src dst fs = (inr tt, set_files fs (<[resolve fs dst := a]> (files fs))).
Proof.
  intros Ha Hne Hr Hw Hfit. rewrite copyfile_eq, Ha, Hr, Hw, Hfit.
  rewrite bool_decide_eq_false_2 by assumption.
  now rewrite String.eqb_refl.
Qed.

(** Whatever [copyfile] does, the file system afterwards is the one before,
    with at most the file of [dst] given a new content. *)
Lemma copyfile_writes_dst (src dst : string) (fs : FileSystem) :
  snd (copyfile src dst fs) = fs
  \/ exists c, snd (copyfile src dst fs)
               = set_files fs (<[resolve fs dst := c]> (files fs)).
Proof.
  rewrite copyfile_eq.
  destruct (files fs !! resolve fs src) as [a|]; [|now left].
  destruct (bool_decide (resolve fs src = resolve fs dst)); [now left|].
  destruct (refuse_read fs !! resolve fs src); [now left|].
  destruct (refuse_write fs !! resolve fs dst); [now left|].
  right. eauto.
Qed.

End FileFacts.
(** ** generate_entity_schema.py *)

Section AppenderFacts.

Import Argparse Os GenerateEntitySchema.

Lemma percent_template (v : Text) : percent template v = declaration v.
Proof. reflexivity. Qed.

(** X4.  When [parse_args] returns, the four attributes that [main] reads,
    [infile], [appendfile], [outfile] and [identifier], are all set: none is
    left at its default, [None]. *)
Lemma parsed_arguments (argv : list string) (args : Namespace) :
  parse_args parser (tail argv) = inr args ->
  is_Some (args !! "infile") /\ is_Some (args !! "appendfile")
  /\ is_Some (args !! "outfile") /\ is_Some (args !! "identifier").
Proof.
  intros H.
  repeat split;
    match goal with
    | |- is_Some (args !! ?d) =>
        match eval vm_compute in (List.find (fun a => String.eqb (dest a) d) (actions parser)) with
        | Some ?a => apply (parse_args_returns parser (tail argv) args a H);
                     [vm_compute; repeat first [apply list_elem_of_here | apply list_elem_of_further]
                     | reflexivity]
        end
    end.
Qed.

(** The four flags, each followed by a value that does not start with a
    dash, parse to these four values. *)
Lemma parse_args_plain (src extra dst ident : string) :
  starts_with_dash src = false -> starts_with_dash extra = false ->
  starts_with_dash dst = false -> starts_with_dash ident = false ->
  parse_args parser
    ["--infile"; src; "--appendfile"; extra; "--outfile"; dst; "--identifier"; ident]
  = inr (<["identifier" := Str ident]>
           (<["outfile" := Str dst]>
              (<["appendfile" := Str extra]> (<["infile" := Str src]> ∅)))).
Proof.
  intros H1 H2 H3 H4. unfold parse_args, parse_known_args.
  repeat first
    [ rewrite arg_strings_pattern_plain by assumption
    | erewrite arg_strings_pattern_option by (vm_compute; reflexivity) ].
  cbn [arg_strings_pattern].
  rewrite !consume_store by (assumption || reflexivity).
  cbn [consume].
  match goal with
  | |- context [required_actions ?p ?seen] =>
      replace (required_actions p seen) with (@nil string) by (vm_compute; reflexivity)
  end.
  reflexivity.
Qed.

Lemma main_eq (argv : list string) (args : Namespace) (fs : FileSystem) :
  parse_args parser (tail argv) = inr args ->
  main argv fs =
  match append_schema args fs with
  | (inl e, fs') => (Raised e, fs')
  | (inr _, fs') => (Returned, fs')
  end.
Proof. intros Hparse. unfold main. now rewrite Hparse. Qed.

(** The block that reads the append file, in closed form. *)
Lemma read_appendfile_eq (args : Namespace) (extra : string) (fs : FileSystem) :
  args !! "appendfile" = Some (Str extra) ->
  read_appendfile args fs =
  match files fs !! resolve fs extra with
  | None => (inl (IOError ENOENT extra), fs)
  | Some c =>
      match refuse_read fs !! resolve fs extra with
      | Some errno => (inl (IOError errno extra), fs)
      | None =>
          match decode fs c with
          | None => (inl UnicodeDecodeError, fs)
          | Some s => (inr (universal_newlines s), fs)
          end
      end
  end.
Proof.
  intros Hextra. unfold read_appendfile. rewrite Hextra.
  unfold filename, mbind, IO_bind, bind, ret, open. cbv zeta.
  destruct (files fs !! resolve fs extra) as [c|] eqn:Hc; [|reflexivity].
  destruct (refuse_read fs !! resolve fs extra); [reflexivity|].
  unfold read, content. cbn [node]. rewrite Hc. reflexivity.
Qed.

(** The block that appends, in closed form, on a file system in which the
    output file holds [old]. *)
Lemma append_text_eq (args : Namespace) (dst old : string) (txt : Text)
    (fs : FileSystem) :
  args !! "outfile" = Some (Str dst) ->
  files fs !! resolve fs dst = Some old ->
  append_text args txt fs =
  match refuse_write fs !! resolve fs dst with
  | Some errno => (inl (IOError errno dst), fs)
  | None =>
      match encode fs (to_linesep (linesep fs) txt) with
      | None => (inl UnicodeEncodeError, fs)
      | Some data =>
          if String.eqb (accepted fs (resolve fs dst) old data) data then
            match encode fs
                    (to_linesep (linesep fs)
                       (percent template (str (fsdecode fs) (args !! "identifier"))))
            with
            | None =>
                (inl UnicodeEncodeError,
                 set_files fs (<[resolve fs dst := old +:+ data]> (files fs)))
            | Some line =>
                (if String.eqb (accepted fs (resolve fs dst) (old +:+ data) line) line
                 then inr tt else inl (OSError ENOSPC),
                 set_files fs
                   (<[resolve fs dst :=
                        old +:+ data
                        +:+ accepted fs (resolve fs dst) (old +:+ data) line]>
                      (files fs)))
            end
          else
            (inl (OSError ENOSPC),
             set_files fs
               (<[resolve fs dst := old +:+ accepted fs (resolve fs dst) old data]>
                  (files fs)))
      end
  end.
Proof.
  intros Hdst Hold. unfold append_text. rewrite Hdst.
  unfold filename, mbind, IO_bind, bind, ret, open. cbv zeta.
  destruct (refuse_write fs !! resolve fs dst); [reflexivity|].
  unfold content. rewrite Hold. cbn [default]. unfold id.
  rewrite (insert_id (files fs)) by assumption. rewrite set_files_files.
  unfold write at 1. cbn [node].
  destruct (encode fs (to_linesep (linesep fs) txt)) as [data|]; [|reflexivity].
  unfold write_bytes at 1. cbn [node]. cbv zeta. unfold content.
  rewrite Hold. cbn [default]. unfold id.
  destruct (String.eqb (accepted fs (resolve fs dst) old data) data) eqn:Hfit;
    [|reflexivity].
  apply String.eqb_eq in Hfit. rewrite Hfit.
  unfold host, write. cbn [fsdecode encode linesep set_files node].
  destruct (encode fs (to_linesep (linesep fs) (percent _ _))) as [bytes|];
    [|reflexivity].
  unfold write_bytes. cbn [node]. cbv zeta.
  rewrite !content_set_files, accepted_set_files, set_files_set_files, files_set_files.
  rewrite lookup_insert_eq. cbn [default]. unfold id. rewrite insert_insert_eq.
  rewrite append_assoc.
  now destruct (String.eqb _ bytes).
Qed.

Lemma append_schema_eq (args : Namespace) (fs : FileSystem) :
  append_schema args fs =
  match args !! "infile", args !! "outfile" with
  | Some (Str src), Some (Str dst) =>
      match copyfile src dst fs with
      | (inl e, fs1) => (inl e, fs1)
      | (inr _, fs1) =>
          match read_appendfile args fs1 with
          | (inl e, fs2) => (inl e, fs2)
          | (inr txt, fs2) => append_text args txt fs2
          end
      end
  | _, _ => (inl TypeError, fs)
  end.
Proof.
  unfold append_schema, filename, mbind, IO_bind, bind, ret, raise.
  destruct (args !! "infile") as [[src|]|]; try reflexivity.
  destruct (args !! "outfile") as [[dst|]|]; reflexivity.
Qed.

Section Run.

Variables (argv : list string) (args : Namespace) (src extra dst : string).
Hypothesis Hparse : parse_args parser (tail argv) = inr args.
Hypothesis Hsrc : args !! "infile" = Some (Str src).
Hypothesis Hextra : args !! "appendfile" = Some (Str extra).
Hypothesis Hdst : args !! "outfile" = Some (Str dst).

(** The run when the copy fails: the exception of [copyfile], and the file
    system that it left. *)
Lemma main_not_copied (fs fs1 : FileSystem) (e : Exception) :
  copyfile src dst fs = (inl e, fs1) -> main argv fs = (Raised e, fs1).
Proof.
  intros Hcopy. rewrite (main_eq argv args fs Hparse).
  now rewrite append_schema_eq, Hsrc, Hdst, Hcopy.
Qed.

(** The run once the input file is copied: the append file is looked up in
    the file system that holds the copy. *)
Lemma main_copied (fs : FileSystem) (a : string) :
  copyfile src dst fs
  = (inr tt, set_files fs (<[resolve fs dst := a]> (files fs))) ->
  main argv fs =
  match <[resolve fs dst := a]> (files fs) !! resolve fs extra with
  | None =>
      (Raised (IOError ENOENT extra),
       set_files fs (<[resolve fs dst := a]> (files fs)))
  | Some c =>
      match refuse_read fs !! resolve fs extra with
      | Some errno =>
          (Raised (IOError errno extra),
           set_files fs (<[resolve fs dst := a]> (files fs)))
      | None =>
          match decode fs c with
          | None =>
              (Raised UnicodeDecodeError,
               set_files fs (<[resolve fs dst := a]> (files fs)))
          | Some s =>
              match refuse_write fs !! resolve fs dst with
              | Some errno =>
                  (Raised (IOError errno dst),
                   set_files fs (<[resolve fs dst := a]> (files fs)))
              | None =>
                  match encode fs (to_linesep (linesep fs) (universal_newlines s)) with
                  | None =>
                      (Raised UnicodeEncodeError,
                       set_files fs (<[resolve fs dst := a]> (files fs)))
                  | Some data =>
                      if String.eqb (accepted fs (resolve fs dst) a data) data then
                        match encode fs
                                (to_linesep (linesep fs)
                                   (percent template
                                      (str (fsdecode fs) (args !! "identifier"))))
                        with
                        | None =>
                            (Raised UnicodeEncodeError,
                             set_files fs
                               (<[resolve fs dst := a +:+ data]> (files fs)))
                        | Some line =>
                            (if String.eqb
                                  (accepted fs (resolve fs dst) (a +:+ data) line) line
                             then Returned else Raised (OSError ENOSPC),
                             set_files fs
                               (<[resolve fs dst :=
                                    a +:+ data
                                    +:+ accepted fs (resolve fs dst) (a +:+ data) line]>
                                  (files fs)))
                        end
                      else
                        (Raised (OSError ENOSPC),
                         set_files fs
                           (<[resolve fs dst :=
                                a +:+ accepted fs (resolve fs dst) a data]>
                              (files fs)))
                  end
              end
          end
      end
  end.
Proof.
  intros Hcopy.
  rewrite (main_eq argv args fs Hparse).
  rewrite append_schema_eq, Hsrc, Hdst, Hcopy.
  rewrite (read_appendfile_eq args extra _ Hextra).
  cbn [files resolve refuse_read decode set_files].
  destruct (<[resolve fs dst := a]> (files fs) !! resolve fs extra) as [c|];
    [|reflexivity].
  destruct (refuse_read fs !! resolve fs extra); [reflexivity|].
  destruct (decode fs c) as [s|]; [|reflexivity].
  rewrite (append_text_eq args dst a) by (assumption || apply lookup_insert_eq).
  cbn [files resolve refuse_write encode linesep fsdecode set_files].
  destruct (refuse_write fs !! resolve fs dst); [reflexivity|].
  destruct (encode fs (to_linesep (linesep fs) (universal_newlines s))) as [data|];
    [|reflexivity].
  rewrite ?accepted_set_files, ?set_files_set_files.
  destruct (String.eqb (accepted fs (resolve fs dst) a data) data).
  - destruct (encode fs _) as [line|].
    + rewrite insert_insert_eq.
      now destruct (String.eqb _ line).
    + now rewrite insert_insert_eq.
  - now rewrite insert_insert_eq.
Qed.

(** Whatever happens, the file system at the end is the one at the start,
    with at most the output file given a new content. *)
Lemma main_writes_outfile (fs : FileSystem) :
  snd (main argv fs) = fs
  \/ exists c, snd (main argv fs)
               = set_files fs (<[resolve fs dst := c]> (files fs)).
Proof.
  destruct (copyfile src dst fs) as [[e|[]] fs1] eqn:Hcopy.
  - rewrite (main_not_copied fs fs1 e Hcopy).
    pose proof (copyfile_writes_dst src dst fs) as H. now rewrite Hcopy in H.
  - destruct (copyfile_inr src dst fs fs1 Hcopy) as (a & _ & _ & _ & _ & _ & ->).
    rewrite (main_copied fs a Hcopy). right.
    repeat match goal with
           | |- context [match ?x with _ => _ end] => destruct x
           end; eauto.
Qed.

(** What the output file holds before the run does not matter, once the
    copy gets as far as writing it. *)
Lemma main_overwrites (fs : FileSystem) (a old : string) :
  files fs !! resolve fs src = Some a ->
  resolve fs src <> resolve fs dst ->
  refuse_read fs !! resolve fs src = None ->
  refuse_write fs !! resolve fs dst = None ->
  main argv (set_files fs (<[resolve fs dst := old]> (files fs))) = main argv fs.
Proof.
  intros Ha Hne Hr Hw.
  rewrite !(main_eq argv args _ Hparse), !append_schema_eq, Hsrc, Hdst.
  rewrite !copyfile_eq. cbn [files resolve refuse_read refuse_write set_files].
  rewrite lookup_insert_ne, Ha, Hr, Hw by congruence.
  rewrite bool_decide_eq_false_2 by assumption.
  rewrite ?accepted_set_files, ?set_files_set_files.
  now rewrite insert_insert_eq.
Qed.

End Run.

(** A run that does not end in the parser and has strings for the input
    and output paths either leaves the file system as it was, or got as far
    as writing the output file. *)
Lemma main_reaches_write (argv : list string) (args : Namespace) (src dst : string)
    (fs : FileSystem) :
  parse_args parser (tail argv) = inr args ->
  args !! "infile" = Some (Str src) ->
  args !! "outfile" = Some (Str dst) ->
  snd (main argv fs) = fs
  \/ (exists a c,
        files fs !! resolve fs src = Some a
        /\ resolve fs src <> resolve fs dst
        /\ refuse_read fs !! resolve fs src = None
        /\ refuse_write fs !! resolve fs dst = None
        /\ snd (main argv fs) = set_files fs (<[resolve fs dst := c]> (files fs))).
Proof.
  intros Hparse Hsrc Hdst.
  rewrite (main_eq argv args fs Hparse), append_schema_eq, Hsrc, Hdst.
  rewrite copyfile_eq.
  destruct (files fs !! resolve fs src) as [a|] eqn:Ha; [|now left].
  destruct (bool_decide (resolve fs src = resolve fs dst)) eqn:H1; [now left|].
  destruct (refuse_read fs !! resolve fs src) eqn:H2; [now left|].
  destruct (refuse_write fs !! resolve fs dst) eqn:H3; [now left|].
  apply bool_decide_eq_false in H1.
  right. exists a.
  set (w := accepted fs (resolve fs dst) EmptyString a).
  destruct (String.eqb w a); [|exists w; now repeat split].
  destruct (args !! "appendfile") as [[extra|]|] eqn:Hextra.
  - rewrite (read_appendfile_eq args extra _ Hextra).
    cbn [files resolve refuse_read decode set_files].
    destruct (<[resolve fs dst := w]> (files fs) !! resolve fs extra) as [c|];
      [|exists w; now repeat split].
    destruct (refuse_read fs !! resolve fs extra); [exists w; now repeat split|].
    destruct (decode fs c) as [s|]; [|exists w; now repeat split].
    rewrite (append_text_eq args dst w) by (assumption || apply lookup_insert_eq).
    cbn [files resolve refuse_write encode linesep fsdecode set_files].
    rewrite H3, ?accepted_set_files, ?set_files_set_files.
    destruct (encode fs (to_linesep (linesep fs) (universal_newlines s))) as [data|];
      [|exists w; now repeat split].
    rewrite ?accepted_set_files, ?set_files_set_files.
    destruct (String.eqb (accepted fs (resolve fs dst) w data) data).
    + destruct (encode fs _) as [line|].
      * destruct (String.eqb _ line); cbn [snd]; rewrite insert_insert_eq;
          eexists; now repeat split.
      * cbn [snd]. rewrite insert_insert_eq. eexists. now repeat split.
    + cbn [snd]. rewrite insert_insert_eq. eexists. now repeat split.
  - unfold read_appendfile. rewrite Hextra. exists w. now repeat split.
  - unfold read_appendfile. rewrite Hextra. exists w. now repeat split.
Qed.

(** Running the script again on the file system it left changes nothing:
    same outcome, same file system. *)
Lemma main_idempotent (argv : list string) (fs : FileSystem) :
  main argv (snd (main argv fs)) = main argv fs.
Proof.
  destruct (parse_args parser (tail argv)) as [e|args] eqn:Hparse;
    [unfold main; rewrite Hparse; reflexivity|].
  destruct (args !! "infile") as [[src|]|] eqn:Hsrc;
    [| assert (H : forall fs, main argv fs = (Raised TypeError, fs))
         by (intros fs0; rewrite (main_eq argv args fs0 Hparse), append_schema_eq, Hsrc;
             reflexivity);
       now rewrite !H ..].
  destruct (args !! "outfile") as [[dst|]|] eqn:Hdst;
    [| assert (H : forall fs, main argv fs = (Raised TypeError, fs))
         by (intros fs0;
             rewrite (main_eq argv args fs0 Hparse), append_schema_eq, Hsrc, Hdst;
             reflexivity);
       now rewrite !H ..].
  destruct (main_reaches_write argv args src dst fs Hparse Hsrc Hdst)
    as [->|(a & c & Ha & Hne & Hr & Hw & ->)]; [reflexivity|].
  apply (main_overwrites argv args src dst Hparse Hsrc Hdst fs a c); assumption.
Qed.

(** A run that returns had three strings for its paths, copied the input
    file, read the append file from the file system that holds the copy, and
    wrote all of what it had to write. *)
Lemma main_returned_inv (argv : list string) (fs fs' : FileSystem) :
  main argv fs = (Returned, fs') ->
  exists (args : Namespace) (src extra dst a c data line : string) (s : Text),
    parse_args parser (tail argv) = inr args
    /\ args !! "infile" = Some (Str src)
    /\ args !! "appendfile" = Some (Str extra)
    /\ args !! "outfile" = Some (Str dst)
    /\ copyfile src dst fs
       = (inr tt, set_files fs (<[resolve fs dst := a]> (files fs)))
    /\ files fs !! resolve fs src = Some a
    /\ resolve fs src <> resolve fs dst
    /\ <[resolve fs dst := a]> (files fs) !! resolve fs extra = Some c
    /\ refuse_read fs !! resolve fs extra = None
    /\ decode fs c = Some s
    /\ encode fs (to_linesep (linesep fs) (universal_newlines s)) = Some data
    /\ encode fs
         (to_linesep (linesep fs)
            (percent template (str (fsdecode fs) (args !! "identifier"))))
       = Some line
    /\ fs' = set_files fs (<[resolve fs dst := a +:+ data +:+ line]> (files fs)).
Proof.
  intros Hmain.
  destruct (parse_args parser (tail argv)) as [e|args] eqn:Hparse;
    [unfold main in Hmain; rewrite Hparse in Hmain; discriminate|].
  assert (Hstr : exists src dst extra,
             args !! "infile" = Some (Str src)
             /\ args !! "outfile" = Some (Str dst)
             /\ args !! "appendfile" = Some (Str extra)).
  { rewrite (main_eq argv args fs Hparse), append_schema_eq in Hmain.
    destruct (args !! "infile") as [[src|]|]; try discriminate.
    destruct (args !! "outfile") as [[dst|]|]; try discriminate.
    destruct (copyfile src dst fs) as [[e|[]] fs1]; try discriminate.
    unfold read_appendfile, filename, mbind, IO_bind, bind, raise in Hmain.
    destruct (args !! "appendfile") as [[extra|]|]; try discriminate.
    eauto 7. }
  destruct Hstr as (src & dst & extra & Hsrc & Hdst & Hextra).
  destruct (copyfile src dst fs) as [[e|[]] fs1] eqn:Hcopy.
  - rewrite (main_not_copied argv args src dst Hparse Hsrc Hdst fs fs1 e Hcopy) in Hmain.
    discriminate.
  - destruct (copyfile_inr src dst fs fs1 Hcopy) as (a & Ha & Hne & _ & _ & _ & ->).
    rewrite (main_copied argv args src extra dst Hparse Hsrc Hextra Hdst fs a Hcopy)
      in Hmain.
    destruct (<[resolve fs dst := a]> (files fs) !! resolve fs extra) as [c|] eqn:Hc;
      [|discriminate].
    destruct (refuse_read fs !! resolve fs extra) eqn:Hrx; [discriminate|].
    destruct (decode fs c) as [s|] eqn:Hs; [|discriminate].
    destruct (refuse_write fs !! resolve fs dst); [discriminate|].
    destruct (encode fs (to_linesep (linesep fs) (universal_newlines s)))
      as [data|] eqn:Hdata; [|discriminate].
    destruct (String.eqb (accepted fs (resolve fs dst) a data) data); [|discriminate].
    destruct (encode fs _) as [line|] eqn:Hline in Hmain; [|discriminate].
    destruct (String.eqb (accepted fs (resolve fs dst) (a +:+ data) line) line)
      eqn:Hfit; [|discriminate].
    apply String.eqb_eq in Hfit. rewrite Hfit in Hmain.
    injection Hmain as <-.
    exists args, src, extra, dst, a, c, data, line, s.
    repeat (split; [assumption || reflexivity|]). reflexivity.
Qed.

End AppenderFacts.
Import Argparse Os GenerateEntitySchema.

(** Evaluation of a closed goal, by conversion. *)
Ltac evaluate :=
  lazymatch goal with
  | |- _ <> _ => vm_compute; discriminate
  | |- ?p = (_, snd ?p) => apply pair_fst; reflexivity
  | |- _ => reflexivity
  end.

(** The scenarios of the spec and some command lines, run on a POSIX host
    with a UTF-8 locale. *)
Example scenario_3 :
  exit_status (fst (main Examples.argv0 Examples.fs0)) = 0%Z
  /\ files (snd (main Examples.argv0 Examples.fs0)) !! "out.fbs"
     = Some ("table Foo {}" +:+ String newline
               ("table Bar {}" +:+ String newline
                  ("file_identifier " +:+ String dquote ("FOOX" +:+ String dquote ";")))).
Proof. split; evaluate. Qed.

Example scenario_4 :
  main Examples.argv_noinfile Examples.fs0
  = (Exited (exit_error (arguments_required ["--infile/-i"])), Examples.fs0).
Proof. evaluate. Qed.

Example abbreviations_and_attached_values :
  parse_args parser ["--inf=in.fbs"; "-xentity.fbs"; "--o"; "out.fbs"; "--id"; "FOOX"]
  = inr Examples.args0.
Proof. evaluate. Qed.

Example ambiguous_abbreviation :
  parse_args parser ["--i"; "in.fbs"]
  = inl (exit_error (ambiguous_option "--i" ["--infile"; "--identifier"])).
Proof. evaluate. Qed.

Example help_wins_over_missing_flags :
  main Examples.argv_help Examples.fs0 = (Exited exit_help, Examples.fs0).
Proof. evaluate. Qed.

Example help_after_a_flag_without_value :
  main ["generate_entity_schema.py"; "--infile"; "--help"] Examples.fs0
  = (Exited (exit_error (expected_one_argument "--infile/-i")), Examples.fs0).
Proof. evaluate. Qed.

Example same_input_and_output :
  main ["generate_entity_schema.py"; "-i"; "in.fbs"; "-x"; "entity.fbs";
        "-o"; "in.fbs"; "--identifier"; "FOOX"] Examples.fs0
  = (Raised (shutil_Error "in.fbs" "in.fbs"), Examples.fs0).
Proof. evaluate. Qed.

(** Two spellings of one file are one file: the copy is refused. *)
Example same_file_under_two_names :
  main ["generate_entity_schema.py"; "-i"; "in.fbs"; "-x"; "entity.fbs";
        "-o"; "./in.fbs"; "--identifier"; "FOOX"] Examples.fs0
  = (Raised (shutil_Error "in.fbs" "./in.fbs"), Examples.fs0).
Proof. evaluate. Qed.

Example value_after_option_is_missing :
  parse_args parser ["--infile"; "--outfile"; "out.fbs"]
  = inl (exit_error (expected_one_argument "--infile/-i")).
Proof. evaluate. Qed.

(** Text mode: the carriage return of an append file does not reach the
    output file. *)
Example carriage_return_dropped :
  files (snd (main ["generate_entity_schema.py"; "-i"; "entity.fbs"; "-x"; "in.fbs";
                    "-o"; "out.fbs"; "--identifier"; "FOOX"] Examples.fs_crlf))
    !! "out.fbs"
  = Some (Examples.bar +:+ Examples.foo +:+ Examples.foox).
Proof. evaluate. Qed.

(** An identifier that is not UTF-8 cannot be written: the run fails, and
    the output file holds the copy and the text of the append file. *)
Example identifier_not_encodable :
  main ["generate_entity_schema.py"; "-i"; "in.fbs"; "-x"; "entity.fbs";
        "-o"; "out.fbs"; "--identifier"; String "255"%char EmptyString] Examples.fs0
  = (Raised UnicodeEncodeError,
     set_files Examples.fs0
       (<["out.fbs" := Examples.foo +:+ Examples.bar]> (files Examples.fs0))).
Proof. evaluate. Qed.

(** An append file that is not UTF-8 cannot be read. *)
Example append_file_not_decodable :
  fst (main Examples.argv0
         (Examples.posix
            (<["in.fbs" := Examples.foo]>
               (<["entity.fbs" := String "255"%char EmptyString]> ∅)) ∅ ∅ ∅))
  = Raised UnicodeDecodeError.
Proof. evaluate. Qed.

(** An output path in a directory that does not exist. *)
Example output_directory_missing :
  main Examples.argv0 Inputs.fs_unwritable
  = (Raised (IOError ENOENT "out.fbs"), Inputs.fs_unwritable).
Proof. evaluate. Qed.

(** No room for more than twenty bytes in the output file: the copy fits,
    the text of the append file does not. *)
Example no_space_left :
  fst (main Examples.argv0
         (Examples.posix (files Examples.fs0) ∅ ∅ {["out.fbs" := 20]}))
  = Raised (OSError ENOSPC)
  /\ files (snd (main Examples.argv0
                   (Examples.posix (files Examples.fs0) ∅ ∅ {["out.fbs" := 20]})))
       !! "out.fbs"
     = Some (Examples.foo +:+ "table B").
Proof. split; evaluate. Qed.

(** C1, as the claim states it, fails: with all four arguments supplied, both
    files present and readable and the output path writable, a run whose
    output path is the append file returns, and the output is not the input
    followed by the append file as it was. *)
Lemma schema_appender_output_aliased :
  ~ (forall (argv : list string) (fs fs' : FileSystem) (args : Namespace)
            (src extra dst ident a b line : string),
        parse_args parser (tail argv) = inr args ->
        args !! "infile" = Some (Str src) ->
        args !! "appendfile" = Some (Str extra) ->
        args !! "outfile" = Some (Str dst) ->
        args !! "identifier" = Some (Str ident) ->
        files fs !! resolve fs src = Some a ->
        refuse_read fs !! resolve fs src = None ->
        files fs !! resolve fs extra = Some b ->
        refuse_read fs !! resolve fs extra = None ->
        refuse_write fs !! resolve fs dst = None ->
        encode fs (declaration (fsdecode fs ident)) = Some line ->
        main argv fs = (Returned, fs') ->
        files fs' !! resolve fs dst = Some (a +:+ b +:+ line)).
Proof.
  intros H.
  specialize (H Examples.argv_alias Examples.fs0
                (snd (main Examples.argv_alias Examples.fs0)) Examples.args_alias
                "in.fbs" "entity.fbs" "entity.fbs" "FOOX" Examples.foo Examples.bar
                Examples.foox).
  assert (Hfalse : files (snd (main Examples.argv_alias Examples.fs0)) !! "entity.fbs"
                   = Some (Examples.foo +:+ Examples.bar +:+ Examples.foox)).
  { apply H; evaluate. }
  vm_compute in Hfalse. discriminate Hfalse.
Qed.

(** C1, amended.  When the parser returns the four arguments as strings, the
    input file and the append file exist and can be read, the output path
    can be written and leads to a file that is neither the input file nor the
    append file, the content of the append file can be decoded, what is to be
    written can be encoded and the host has room for it, then the run returns
    with status 0 and the output file holds exactly the input file, byte for
    byte, then the text of the append file as text mode writes it back, then
    the encoded text of [file_identifier], the identifier as it was given
    between double quotes, and a semicolon, with no newline after it; nothing
    else changes.  The text of the append file is written back as the bytes
    of the append file when it holds no carriage return, the line separator
    of the host is the line feed and the text encodes to the bytes it was
    decoded from. *)
Theorem schema_appender_output
    (argv : list string) (fs : FileSystem) (args : Namespace)
    (src extra dst ident a b data line : string) (s : Text) :
  parse_args parser (tail argv) = inr args ->
  args !! "infile" = Some (Str src) ->
  args !! "appendfile" = Some (Str extra) ->
  args !! "outfile" = Some (Str dst) ->
  args !! "identifier" = Some (Str ident) ->
  files fs !! resolve fs src = Some a ->
  refuse_read fs !! resolve fs src = None ->
  files fs !! resolve fs extra = Some b ->
  refuse_read fs !! resolve fs extra = None ->
  refuse_write fs !! resolve fs dst = None ->
  resolve fs dst <> resolve fs src -> resolve fs dst <> resolve fs extra ->
  decode fs b = Some s ->
  encode fs (to_linesep (linesep fs) (universal_newlines s)) = Some data ->
  encode fs (to_linesep (linesep fs) (declaration (fsdecode fs ident))) = Some line ->
  fits fs (resolve fs dst) (String.length (a +:+ data +:+ line)) = true ->
  main argv fs
  = (Returned, set_files fs (<[resolve fs dst := a +:+ data +:+ line]> (files fs)))
  /\ exit_status (fst (main argv fs)) = 0%Z
  /\ files (snd (main argv fs)) !! resolve fs dst = Some (a +:+ data +:+ line)
  /\ (~ In CR s -> linesep fs = [LF] -> encode fs s = Some b -> data = b)
  /\ (linesep fs = [LF] -> encode fs (declaration (fsdecode fs ident)) = Some line).
Proof.
  intros Hparse Hsrc Hextra Hdst Hident Ha Hra Hb Hrb Hw Hne1 Hne2 Hs Hdata Hline Hfit.
  destruct (accepted_three fs (resolve fs dst) a data line Hfit)
    as (Hfit1 & Hfit2 & Hfit3).
  assert (Hmain : main argv fs
    = (Returned, set_files fs (<[resolve fs dst := a +:+ data +:+ line]> (files fs)))).
  { rewrite (main_copied argv args src extra dst Hparse Hsrc Hextra Hdst fs a)
      by (apply copyfile_succeeds; (assumption || congruence)).
    rewrite lookup_insert_ne, Hb, Hrb, Hs, Hw, Hdata by assumption.
    rewrite Hident, percent_template. cbn [str]. rewrite Hline, Hfit2, Hfit3.
    now rewrite !String.eqb_refl. }
  rewrite Hmain. split; [reflexivity|]. split; [reflexivity|].
  split; [apply lookup_insert_eq|]. split.
  - intros Hcr Hsep Hback.
    rewrite Hsep, to_linesep_LF, universal_newlines_no_CR in Hdata by assumption.
    congruence.
  - intros Hsep. now rewrite Hsep, to_linesep_LF in Hline.
Qed.

Lemma schema_appender_output_witness :
  main Examples.argv0 Examples.fs0
  = (Returned,
     set_files Examples.fs0
       (<["out.fbs" := Examples.foo +:+ Examples.bar +:+ Examples.foox]>
          (files Examples.fs0)))
  /\ exit_status (fst (main Examples.argv0 Examples.fs0)) = 0%Z
  /\ files (snd (main Examples.argv0 Examples.fs0)) !! "out.fbs"
     = Some (Examples.foo +:+ Examples.bar +:+ Examples.foox).
Proof.
  destruct (schema_appender_output Examples.argv0 Examples.fs0 Examples.args0
              "in.fbs" "entity.fbs" "out.fbs" "FOOX" Examples.foo Examples.bar
              Examples.bar Examples.foox (text Examples.bar))
    as (H1 & H2 & H3 & _); [evaluate ..|].
  split; [exact H1|]. split; [exact H2|exact H3].
Defined.

(** C10, as the claim states it, fails: the copy is read back in text mode,
    so an input file whose line ends with a carriage return and a line feed
    is appended without the carriage return, and the output file is not the
    input twice. *)
Lemma appendfile_is_outfile_crlf :
  ~ (forall (argv : list string) (fs fs' : FileSystem) (args : Namespace)
            (src dst ident a line : string),
        parse_args parser (tail argv) = inr args ->
        args !! "infile" = Some (Str src) ->
        args !! "appendfile" = Some (Str dst) ->
        args !! "outfile" = Some (Str dst) ->
        args !! "identifier" = Some (Str ident) ->
        files fs !! resolve fs src = Some a ->
        encode fs (declaration (fsdecode fs ident)) = Some line ->
        main argv fs = (Returned, fs') ->
        files fs' !! resolve fs dst = Some (a +:+ a +:+ line)).
Proof.
  intros H.
  specialize (H Examples.argv_alias Examples.fs_crlf
                (snd (main Examples.argv_alias Examples.fs_crlf)) Examples.args_alias
                "in.fbs" "entity.fbs" "FOOX" Examples.foo_crlf Examples.foox).
  assert (Hfalse : files (snd (main Examples.argv_alias Examples.fs_crlf)) !! "entity.fbs"
                   = Some (Examples.foo_crlf +:+ Examples.foo_crlf +:+ Examples.foox)).
  { apply H; evaluate. }
  vm_compute in Hfalse. discriminate Hfalse.
Qed.

(** C10, amended.  When [--appendfile] and [--outfile] lead to the same
    file, the input file is copied to it before it is read: what is read is
    the copy, whatever the file held, and the file ends as the input, byte
    for byte, then the text of the input as text mode writes it back, then the
    declaration.  The text is written back as the bytes of the input when it
    holds no carriage return, the line separator of the host is the line feed
    and the text encodes to the bytes it was decoded from. *)
Theorem appendfile_is_outfile
    (argv : list string) (fs : FileSystem) (args : Namespace)
    (src extra dst ident a data line : string) (s : Text) :
  parse_args parser (tail argv) = inr args ->
  args !! "infile" = Some (Str src) ->
  args !! "appendfile" = Some (Str extra) ->
  args !! "outfile" = Some (Str dst) ->
  args !! "identifier" = Some (Str ident) ->
  resolve fs extra = resolve fs dst ->
  files fs !! resolve fs src = Some a ->
  refuse_read fs !! resolve fs src = None ->
  refuse_read fs !! resolve fs dst = None ->
  refuse_write fs !! resolve fs dst = None ->
  resolve fs src <> resolve fs dst ->
  decode fs a = Some s ->
  encode fs (to_linesep (linesep fs) (universal_newlines s)) = Some data ->
  encode fs (to_linesep (linesep fs) (declaration (fsdecode fs ident))) = Some line ->
  fits fs (resolve fs dst) (String.length (a +:+ data +:+ line)) = true ->
  main argv fs
  = (Returned, set_files fs (<[resolve fs dst := a +:+ data +:+ line]> (files fs)))
  /\ files (snd (main argv fs)) !! resolve fs dst = Some (a +:+ data +:+ line)
  /\ (~ In CR s -> linesep fs = [LF] -> encode fs s = Some a -> data = a)
  /\ (forall old : string,
        main argv (set_files fs (<[resolve fs dst := old]> (files fs))) = main argv fs).
Proof.
  intros Hparse Hsrc Hextra Hdst Hident Hsame Ha Hra Hrd Hw Hne Hs Hdata Hline Hfit.
  destruct (accepted_three fs (resolve fs dst) a data line Hfit)
    as (Hfit1 & Hfit2 & Hfit3).
  assert (Hmain : main argv fs
    = (Returned, set_files fs (<[resolve fs dst := a +:+ data +:+ line]> (files fs)))).
  { rewrite (main_copied argv args src extra dst Hparse Hsrc Hextra Hdst fs a)
      by (apply copyfile_succeeds; assumption).
    rewrite Hsame, lookup_insert_eq, Hrd, Hs, Hw, Hdata.
    rewrite Hident, percent_template. cbn [str]. rewrite Hline, Hfit2, Hfit3.
    now rewrite !String.eqb_refl. }
  rewrite Hmain. split; [reflexivity|].
  split; [apply lookup_insert_eq|]. split.
  - intros Hcr Hsep Hback.
    rewrite Hsep, to_linesep_LF, universal_newlines_no_CR in Hdata by assumption.
    congruence.
  - intros old. rewrite <- Hmain.
    apply (main_overwrites argv args src dst Hparse Hsrc Hdst fs a old); assumption.
Qed.

Lemma appendfile_is_outfile_witness :
  main Examples.argv_alias Examples.fs0
  = (Returned,
     set_files Examples.fs0
       (<["entity.fbs" := Examples.foo +:+ Examples.foo +:+ Examples.foox]>
          (files Examples.fs0)))
  /\ files (snd (main Examples.argv_alias Examples.fs0)) !! "entity.fbs"
     = Some (Examples.foo +:+ Examples.foo +:+ Examples.foox).
Proof.
  destruct (appendfile_is_outfile Examples.argv_alias Examples.fs0 Examples.args_alias
              "in.fbs" "entity.fbs" "entity.fbs" "FOOX" Examples.foo Examples.foo
              Examples.foox (text Examples.foo))
    as (H1 & H2 & _); [evaluate ..|].
  split; [exact H1|exact H2].
Defined.

(** C4, as the claim states it, fails: an append file that does not exist
    does not make the run fail when its path is the output path, since the
    copy creates it before it is opened. *)
Lemma missing_append_file_created_by_copy :
  ~ (forall (argv : list string) (fs : FileSystem) (args : Namespace)
            (src extra dst : string),
        parse_args parser (tail argv) = inr args ->
        args !! "infile" = Some (Str src) ->
        args !! "appendfile" = Some (Str extra) ->
        args !! "outfile" = Some (Str dst) ->
        files fs !! resolve fs src = None \/ files fs !! resolve fs extra = None ->
        exit_status (fst (main argv fs)) <> 0%Z).
Proof.
  intros H.
  apply (H Examples.argv_new Examples.fs0 Examples.args_new
           "in.fbs" "new.fbs" "new.fbs"); try reflexivity.
  right. reflexivity.
Qed.

(** C4, amended.  A missing input file ends the run with [IOError], errno
    [ENOENT], and status 1, before anything is written.  A missing append
    file that is not the output file ends the run with status 1: with
    [IOError], errno [ENOENT], for the append file once the copy is made, the
    output file holding the copy, and with the error of the copy otherwise.
    Nothing is undone: when the copy is made and the run then fails, with a
    missing append file or with an error while appending, the output file is
    there and holds at least the copy of the input file, the input file's
    content followed by what was appended before the failure, and no other
    file has changed. *)
Theorem missing_file_no_rollback
    (argv : list string) (fs : FileSystem) (args : Namespace)
    (src extra dst : string) :
  parse_args parser (tail argv) = inr args ->
  args !! "infile" = Some (Str src) ->
  args !! "appendfile" = Some (Str extra) ->
  args !! "outfile" = Some (Str dst) ->
  (files fs !! resolve fs src = None ->
   main argv fs = (Raised (IOError ENOENT src), fs)
   /\ exit_status (fst (main argv fs)) = 1%Z)
  /\ (files fs !! resolve fs extra = None -> resolve fs extra <> resolve fs dst ->
      exit_status (fst (main argv fs)) = 1%Z
      /\ ((exists (e : Exception) (fs1 : FileSystem),
              copyfile src dst fs = (inl e, fs1) /\ main argv fs = (Raised e, fs1))
          \/ (exists a : string,
                 files fs !! resolve fs src = Some a
                 /\ copyfile src dst fs
                    = (inr tt, set_files fs (<[resolve fs dst := a]> (files fs)))
                 /\ main argv fs
                    = (Raised (IOError ENOENT extra),
                       set_files fs (<[resolve fs dst := a]> (files fs)))
                 /\ files (snd (main argv fs)) !! resolve fs dst = Some a)))
  /\ (forall (fs1 fs' : FileSystem) (e : Exception),
        copyfile src dst fs = (inr tt, fs1) ->
        main argv fs = (Raised e, fs') ->
        exit_status (fst (main argv fs)) = 1%Z
        /\ exists a appended : string,
             files fs !! resolve fs src = Some a
             /\ files fs1 !! resolve fs dst = Some a
             /\ files fs' !! resolve fs dst = Some (a +:+ appended)
             /\ forall file : string,
                  file <> resolve fs dst -> files fs' !! file = files fs !! file).
Proof.
  intros Hparse Hsrc Hextra Hdst. split; [|split].
  - intros Hnone.
    rewrite (main_not_copied argv args src dst Hparse Hsrc Hdst fs fs
               (IOError ENOENT src)) by (now rewrite copyfile_eq, Hnone).
    split; reflexivity.
  - intros Hmissing Hne.
    destruct (copyfile src dst fs) as [[e|[]] fs1] eqn:Hcopy.
    + rewrite (main_not_copied argv args src dst Hparse Hsrc Hdst fs fs1 e Hcopy).
      split; [reflexivity|]. left. eauto.
    + destruct (copyfile_inr src dst fs fs1 Hcopy) as (a & Ha & _ & _ & _ & _ & ->).
      rewrite (main_copied argv args src extra dst Hparse Hsrc Hextra Hdst fs a Hcopy).
      rewrite lookup_insert_ne, Hmissing by congruence.
      split; [reflexivity|]. right. exists a.
      repeat split; try assumption. apply lookup_insert_eq.
  - intros fs1 fs' e Hcopy Hmain. rewrite Hmain. split; [reflexivity|].
    destruct (copyfile_inr src dst fs fs1 Hcopy) as (a & Ha & _ & _ & _ & _ & ->).
    rewrite (main_copied argv args src extra dst Hparse Hsrc Hextra Hdst fs a Hcopy)
      in Hmain.
    exists a.
    assert (Hcase : exists appended,
               fs' = set_files fs (<[resolve fs dst := a +:+ appended]> (files fs))).
    { destruct (<[resolve fs dst := a]> (files fs) !! resolve fs extra) as [c|];
        [|injection Hmain as _ <-; exists EmptyString; now rewrite append_nil_r].
      destruct (refuse_read fs !! resolve fs extra);
        [injection Hmain as _ <-; exists EmptyString; now rewrite append_nil_r|].
      destruct (decode fs c) as [s|];
        [|injection Hmain as _ <-; exists EmptyString; now rewrite append_nil_r].
      destruct (refuse_write fs !! resolve fs dst);
        [injection Hmain as _ <-; exists EmptyString; now rewrite append_nil_r|].
      destruct (encode fs (to_linesep (linesep fs) (universal_newlines s))) as [data|];
        [|injection Hmain as _ <-; exists EmptyString; now rewrite append_nil_r].
      destruct (String.eqb (accepted fs (resolve fs dst) a data) data);
        [|injection Hmain as _ <-; eauto].
      destruct (encode fs _) as [line|] in Hmain;
        [|injection Hmain as _ <-; eauto].
      injection Hmain as _ <-. eauto. }
    destruct Hcase as [appended ->]. exists appended.
    rewrite !files_set_files, !lookup_insert_eq.
    repeat split; try assumption.
    intros file Hfile. now apply lookup_insert_ne.
Qed.

Lemma missing_file_no_rollback_witness :
  exit_status (fst (main Examples.argv_noappend Examples.fs0)) = 1%Z
  /\ ((exists (e : Exception) (fs1 : FileSystem),
          copyfile "in.fbs" "out.fbs" Examples.fs0 = (inl e, fs1)
          /\ main Examples.argv_noappend Examples.fs0 = (Raised e, fs1))
      \/ (exists a : string,
             files Examples.fs0 !! resolve Examples.fs0 "in.fbs" = Some a
             /\ copyfile "in.fbs" "out.fbs" Examples.fs0
                = (inr tt,
                   set_files Examples.fs0
                     (<[resolve Examples.fs0 "out.fbs" := a]> (files Examples.fs0)))
             /\ main Examples.argv_noappend Examples.fs0
                = (Raised (IOError ENOENT "missing.fbs"),
                   set_files Examples.fs0
                     (<[resolve Examples.fs0 "out.fbs" := a]> (files Examples.fs0)))
             /\ files (snd (main Examples.argv_noappend Examples.fs0))
                  !! resolve Examples.fs0 "out.fbs" = Some a)).
Proof.
  apply (missing_file_no_rollback Examples.argv_noappend Examples.fs0
           Examples.args_noappend "in.fbs" "missing.fbs" "out.fbs");
    evaluate.
Defined.

(** C5.  Run again with the same command line on the file system the first
    run left, the script ends the same way and leaves the same file system:
    the output file is byte for byte the same.  And a file that is already at
    the output path is overwritten, not appended to and not refused: once the
    copy gets as far as writing the output file, the run is the same whatever
    the output file held, and under the conditions of C1 it returns and the
    output file is the input, the text of the append file and the
    declaration. *)
Theorem rerun_same_output (argv : list string) (fs : FileSystem) :
  main argv (snd (main argv fs)) = main argv fs
  /\ files (snd (main argv (snd (main argv fs)))) = files (snd (main argv fs))
  /\ (forall (args : Namespace) (src dst a old : string),
        parse_args parser (tail argv) = inr args ->
        args !! "infile" = Some (Str src) ->
        args !! "outfile" = Some (Str dst) ->
        files fs !! resolve fs src = Some a ->
        refuse_read fs !! resolve fs src = None ->
        refuse_write fs !! resolve fs dst = None ->
        resolve fs dst <> resolve fs src ->
        main argv (set_files fs (<[resolve fs dst := old]> (files fs)))
        = main argv fs)
  /\ (forall (args : Namespace) (src extra dst ident a b data line old : string)
             (s : Text),
        parse_args parser (tail argv) = inr args ->
        args !! "infile" = Some (Str src) ->
        args !! "appendfile" = Some (Str extra) ->
        args !! "outfile" = Some (Str dst) ->
        args !! "identifier" = Some (Str ident) ->
        files fs !! resolve fs src = Some a ->
        refuse_read fs !! resolve fs src = None ->
        files fs !! resolve fs extra = Some b ->
        refuse_read fs !! resolve fs extra = None ->
        refuse_write fs !! resolve fs dst = None ->
        resolve fs dst <> resolve fs src -> resolve fs dst <> resolve fs extra ->
        decode fs b = Some s ->
        encode fs (to_linesep (linesep fs) (universal_newlines s)) = Some data ->
        encode fs (to_linesep (linesep fs) (declaration (fsdecode fs ident)))
        = Some line ->
        fits fs (resolve fs dst) (String.length (a +:+ data +:+ line)) = true ->
        main argv (set_files fs (<[resolve fs dst := old]> (files fs)))
        = (Returned,
           set_files fs (<[resolve fs dst := a +:+ data +:+ line]> (files fs)))).
Proof.
  split; [apply main_idempotent|]. split; [now rewrite main_idempotent|].
  assert (Hover : forall (args : Namespace) (src dst a old : string),
             parse_args parser (tail argv) = inr args ->
             args !! "infile" = Some (Str src) ->
             args !! "outfile" = Some (Str dst) ->
             files fs !! resolve fs src = Some a ->
             refuse_read fs !! resolve fs src = None ->
             refuse_write fs !! resolve fs dst = None ->
             resolve fs dst <> resolve fs src ->
             main argv (set_files fs (<[resolve fs dst := old]> (files fs)))
             = main argv fs).
  { intros args src dst a old Hparse Hsrc Hdst Ha Hr Hw Hne.
    apply (main_overwrites argv args src dst Hparse Hsrc Hdst fs a old);
      (assumption || congruence). }
  split; [exact Hover|].
  intros args src extra dst ident a b data line old s Hparse Hsrc Hextra Hdst Hident
         Ha Hra Hb Hrb Hw Hne1 Hne2 Hs Hdata Hline Hfit.
  rewrite (Hover args src dst a old) by assumption.
  destruct (accepted_three fs (resolve fs dst) a data line Hfit)
    as (Hfit1 & Hfit2 & Hfit3).
  rewrite (main_copied argv args src extra dst Hparse Hsrc Hextra Hdst fs a)
    by (apply copyfile_succeeds; (assumption || congruence)).
  rewrite lookup_insert_ne, Hb, Hrb, Hs, Hw, Hdata by assumption.
  rewrite Hident, percent_template. cbn [str]. rewrite Hline, Hfit2, Hfit3.
  now rewrite !String.eqb_refl.
Qed.

Lemma rerun_same_output_witness :
  main Examples.argv0 (snd (main Examples.argv0 Examples.fs0))
  = main Examples.argv0 Examples.fs0
  /\ main Examples.argv0
       (set_files Examples.fs0 (<["out.fbs" := "stale"]> (files Examples.fs0)))
     = (Returned, Examples.fs_out).
Proof.
  destruct (rerun_same_output Examples.argv0 Examples.fs0) as (Hagain & _ & _ & Hover).
  split; [exact Hagain|].
  apply (Hover Examples.args0 "in.fbs" "entity.fbs" "out.fbs" "FOOX"
               Examples.foo Examples.bar Examples.bar Examples.foox "stale"
               (text Examples.bar));
    evaluate.
Defined.

(** C8, as the claim states it, fails: two different paths may lead to the
    same file.  With [./entity.fbs] for the append file and [entity.fbs] for
    the output file, the output path is neither the input path nor the append
    path, the run returns, and the append file has changed. *)
Lemma only_outfile_written_two_names :
  ~ (forall (argv : list string) (fs fs' : FileSystem) (args : Namespace)
            (src extra dst : string),
        parse_args parser (tail argv) = inr args ->
        args !! "infile" = Some (Str src) ->
        args !! "appendfile" = Some (Str extra) ->
        args !! "outfile" = Some (Str dst) ->
        dst <> src -> dst <> extra ->
        main argv fs = (Returned, fs') ->
        files fs' !! resolve fs src = files fs !! resolve fs src
        /\ files fs' !! resolve fs extra = files fs !! resolve fs extra).
Proof.
  intros H.
  destruct (H Examples.argv_two_names Examples.fs0
              (snd (main Examples.argv_two_names Examples.fs0)) Examples.args_two_names
              "in.fbs" "./entity.fbs" "entity.fbs") as [_ Hfalse]; [evaluate ..|].
  vm_compute in Hfalse. discriminate Hfalse.
Qed.

(** C8, amended.  Only the output file is written.  When the output path
    leads to a file that is neither the input file nor the append file, the
    input file and the append file are after the run what they were before
    it, and so is every file other than the output file, whether the run
    returns or fails; nothing else of the host changes either. *)
Theorem only_outfile_written
    (argv : list string) (fs : FileSystem) (args : Namespace)
    (src extra dst : string) :
  parse_args parser (tail argv) = inr args ->
  args !! "infile" = Some (Str src) ->
  args !! "appendfile" = Some (Str extra) ->
  args !! "outfile" = Some (Str dst) ->
  resolve fs dst <> resolve fs src -> resolve fs dst <> resolve fs extra ->
  files (snd (main argv fs)) !! resolve fs src = files fs !! resolve fs src
  /\ files (snd (main argv fs)) !! resolve fs extra = files fs !! resolve fs extra
  /\ (forall file : string,
        file <> resolve fs dst -> files (snd (main argv fs)) !! file = files fs !! file)
  /\ set_files (snd (main argv fs)) (files fs) = fs.
Proof.
  intros Hparse Hsrc Hextra Hdst Hne1 Hne2.
  destruct (main_writes_outfile argv args src extra dst Hparse Hsrc Hextra Hdst fs)
    as [->|[c ->]].
  - repeat split. apply set_files_files.
  - rewrite files_set_files, set_files_set_files. repeat split.
    + apply lookup_insert_ne. congruence.
    + apply lookup_insert_ne. congruence.
    + intros file Hfile. apply lookup_insert_ne. congruence.
    + apply set_files_files.
Qed.

Lemma only_outfile_written_witness :
  files (snd (main Examples.argv0 Examples.fs0)) !! resolve Examples.fs0 "in.fbs"
  = files Examples.fs0 !! resolve Examples.fs0 "in.fbs"
  /\ files (snd (main Examples.argv0 Examples.fs0)) !! resolve Examples.fs0 "entity.fbs"
     = files Examples.fs0 !! resolve Examples.fs0 "entity.fbs"
  /\ (forall file : string,
        file <> resolve Examples.fs0 "out.fbs" ->
        files (snd (main Examples.argv0 Examples.fs0)) !! file
        = files Examples.fs0 !! file)
  /\ set_files (snd (main Examples.argv0 Examples.fs0)) (files Examples.fs0)
     = Examples.fs0.
Proof.
  apply (only_outfile_written Examples.argv0 Examples.fs0 Examples.args0
           "in.fbs" "entity.fbs" "out.fbs");
    evaluate.
Defined.

(** The parser prints the help only when the command line asks for it. *)
Lemma parse_args_exit_help (p : ArgumentParser_) (args : list string) :
  parse_args p args = inl exit_help -> help_requested p args = true.
Proof.
  unfold parse_args, parse_known_args.
  destruct (arg_strings_pattern p args) as [m|patterns] eqn:Hpat; [discriminate|].
  apply arg_strings_pattern_actions in Hpat.
  pose proof (consume_inv p patterns (∅, []) []) as Hloop. rewrite Hpat in Hloop.
  destruct (consume p patterns (∅, []) []) as [[|m]|[[ns seen] extras]].
  - intros _. destruct Hloop as (a & Ha & Hc). unfold help_requested.
    apply existsb_exists. exists a. split; [now apply list_elem_of_In|].
    now apply bool_decide_eq_true.
  - discriminate.
  - destruct (required_actions p seen); [|discriminate].
    destruct extras; discriminate.
Qed.

(** C3, as the claim states it, fails: a command line with no required flag
    and [--help] ends with status 0. *)
Lemma missing_flag_help_exits_zero :
  ~ (forall (argv : list string) (fs : FileSystem) (action : Action),
        action ∈ actions parser -> required action = true ->
        supplied parser action (tail argv) = false ->
        exit_status (fst (main argv fs)) <> 0%Z).
Proof.
  intros H.
  apply (H Examples.argv_help Examples.fs0 Examples.infile_action).
  - vm_compute. apply elem_of_cons. right. apply elem_of_cons. now left.
  - reflexivity.
  - vm_compute. reflexivity.
  - vm_compute. reflexivity.
Qed.

(** C3, amended.  When one of the four required flags is missing from the
    command line, the process ends inside [parse_args], before any file is
    opened: the file system is left as it was.  It ends through
    [parser.error], the usage and an error message on standard error and
    status 2, or, which can happen only when [-h] or [--help] is on the
    command line, through the help action, with status 0.  A request for help
    does not always win: an error found before it ends the run with
    status 2. *)
Theorem missing_required_flag
    (argv : list string) (fs : FileSystem) (action : Action) :
  action ∈ actions parser -> required action = true ->
  supplied parser action (tail argv) = false ->
  (exists e : SystemExit, main argv fs = (Exited e, fs))
  /\ ((exists message : ErrorMessage,
          main argv fs = (Exited (exit_error message), fs)
          /\ exit_status (fst (main argv fs)) = 2%Z)
      \/ (help_requested parser (tail argv) = true
          /\ main argv fs = (Exited exit_help, fs)
          /\ exit_status (fst (main argv fs)) = 0%Z))
  /\ (help_requested parser (tail argv) = false ->
      exists message : ErrorMessage,
        main argv fs = (Exited (exit_error message), fs)
        /\ exit_status (fst (main argv fs)) = 2%Z).
Proof.
  intros Hin Hreq Hmissing.
  pose proof (parse_args_missing parser action (tail argv) Hin Hreq Hmissing) as H.
  unfold main.
  destruct (parse_args parser (tail argv)) as [[|m]|args]; [| |contradiction].
  - split; [eauto|]. split; [right; now repeat split|]. intros Hhelp. congruence.
  - split; [eauto|]. split; [left; eauto|]. intros _. eauto.
Qed.

Lemma missing_required_flag_witness :
  exists message : ErrorMessage,
    main Examples.argv_noinfile Examples.fs0
    = (Exited (exit_error message), Examples.fs0)
    /\ exit_status (fst (main Examples.argv_noinfile Examples.fs0)) = 2%Z.
Proof.
  apply (missing_required_flag Examples.argv_noinfile Examples.fs0
           Examples.infile_action).
  - vm_compute. apply elem_of_cons. right. apply elem_of_cons. now left.
  - reflexivity.
  - vm_compute. reflexivity.
  - vm_compute. reflexivity.
Defined.

(** * Further properties *)

(** ** glob_files.py: unchanged paths, composition, lines *)

Section CollectorMore.

Import GlobFiles.

Lemma occurrences_append (c : ascii) (s t : string) :
  occurrences c (s +:+ t) = occurrences c s + occurrences c t.
Proof.
  induction s as [|d s IH]; [reflexivity|].
  rewrite append_cons. simpl. rewrite IH. lia.
Qed.

Lemma occurrences_absent (c : ascii) (s : string) :
  contains c s = false -> occurrences c s = 0.
Proof.
  induction s as [|d s IH]; simpl; [reflexivity|].
  intros H. apply orb_false_iff in H as [-> Hs]. now rewrite IH.
Qed.

Lemma occurrences_replace (c old new : ascii) (s : string) :
  c <> old -> c <> new -> occurrences c (replace old new s) = occurrences c s.
Proof.
  intros Ho Hn. induction s as [|d s IH]; simpl; [reflexivity|].
  rewrite IH. f_equal.
  destruct (Ascii.eqb d old) eqn:Hd.
  - apply Ascii.eqb_eq in Hd as ->.
    apply Ascii.eqb_neq in Ho, Hn. now rewrite Ho, Hn.
  - reflexivity.
Qed.

Lemma join_cons (sep x : string) (l : list string) :
  l <> [] -> join sep (x :: l) = x +:+ sep +:+ join sep l.
Proof. destruct l; [contradiction | reflexivity]. Qed.

Lemma join_app (sep : string) (l1 l2 : list string) :
  l1 <> [] -> l2 <> [] ->
  join sep (l1 ++ l2) = join sep l1 +:+ sep +:+ join sep l2.
Proof.
  intros H1 H2. induction l1 as [|x l1 IH]; [contradiction|].
  destruct l1 as [|y l1].
  - simpl app. now rewrite join_cons.
  - change ((x :: y :: l1) ++ l2) with (x :: (y :: l1) ++ l2).
    rewrite join_cons by discriminate.
    rewrite IH by discriminate.
    rewrite (join_cons sep x (y :: l1)) by discriminate.
    now rewrite !append_assoc.
Qed.

Lemma contains_join (c : ascii) (sep : string) (l : list string) :
  contains c sep = false ->
  Forall (fun s => contains c s = false) l ->
  contains c (join sep l) = false.
Proof.
  intros Hsep. induction 1 as [|x l Hx Hl IH]; [reflexivity|].
  destruct l as [|y l]; [exact Hx|].
  rewrite join_cons by discriminate.
  now rewrite !contains_append, Hx, Hsep, IH.
Qed.

Lemma occurrences_join (l : list string) :
  Forall (fun s => contains newline s = false) l ->
  occurrences newline (join (String newline EmptyString) l) = length l - 1.
Proof.
  induction 1 as [|x l Hx Hl IH]; [reflexivity|].
  destruct l as [|y l]; [simpl; now apply occurrences_absent|].
  rewrite join_cons by discriminate.
  rewrite !occurrences_append, IH, (occurrences_absent _ _ Hx). simpl. lia.
Qed.

End CollectorMore.

(** X1.  When no matched path contains a backslash, as on a POSIX host, the
    replacement changes nothing: the printed string is the matched paths
    joined by newlines, as [glob] returned them. *)
Theorem posix_paths_unchanged (glob : string -> list string) (argv : list string) :
  Forall (fun path => contains backslash path = false) (flat_map glob (tail argv)) ->
  GlobFiles.output_string glob argv
  = GlobFiles.join (String newline EmptyString) (flat_map glob (tail argv)).
Proof.
  intros H. unfold GlobFiles.output_string. rewrite collect_flat_map. simpl app.
  apply replace_absent. now apply contains_join.
Qed.

Lemma posix_paths_unchanged_witness :
  GlobFiles.output_string Examples.glob ["glob_files.py"; "*.txt"; "READ*"]
  = GlobFiles.join (String newline EmptyString)
      (flat_map Examples.glob (tail ["glob_files.py"; "*.txt"; "READ*"])).
Proof.
  apply (posix_paths_unchanged Examples.glob ["glob_files.py"; "*.txt"; "READ*"]).
  vm_compute. repeat constructor.
Defined.

(** X2.  The output for two lists of patterns, one after the other, is the
    output for the first list, a newline, and the output for the second; when
    one of the lists matches nothing, it is the output for the other alone,
    with no empty line. *)
Theorem patterns_compose (glob : string -> list string) (prog : string)
    (ps1 ps2 : list string) :
  GlobFiles.output_string glob (prog :: ps1 ++ ps2)
  = match flat_map glob ps1, flat_map glob ps2 with
    | [], _ => GlobFiles.output_string glob (prog :: ps2)
    | _, [] => GlobFiles.output_string glob (prog :: ps1)
    | _, _ => GlobFiles.output_string glob (prog :: ps1)
              +:+ String newline EmptyString
              +:+ GlobFiles.output_string glob (prog :: ps2)
    end.
Proof.
  unfold GlobFiles.output_string. simpl tail. rewrite !collect_flat_map. simpl app.
  rewrite flat_map_app.
  destruct (flat_map glob ps1) as [|x l1] eqn:H1; [reflexivity|].
  destruct (flat_map glob ps2) as [|y l2] eqn:H2; [now rewrite List.app_nil_r|].
  rewrite join_app by discriminate.
  now rewrite !replace_append.
Qed.

(** X3.  When no matched path contains a newline, standard output holds one
    line per matched path: as many newlines as there are paths, and a single
    newline, that of [print], when there is none. *)
Theorem one_line_per_path (glob : string -> list string) (argv : list string) :
  Forall (fun path => contains newline path = false) (flat_map glob (tail argv)) ->
  occurrences newline (fst (GlobFiles.main glob argv))
  = Nat.max 1 (length (flat_map glob (tail argv))).
Proof.
  intros H. unfold GlobFiles.main, GlobFiles.print, GlobFiles.output_string. simpl fst.
  rewrite collect_flat_map. simpl app.
  rewrite append_nil_l, occurrences_append, occurrences_replace by discriminate.
  rewrite (occurrences_join _ H). simpl. lia.
Qed.

Lemma one_line_per_path_witness :
  occurrences newline
    (fst (GlobFiles.main Examples.glob ["glob_files.py"; "src\*.cc"; "a*"]))
  = Nat.max 1 (length (flat_map Examples.glob (tail ["glob_files.py"; "src\*.cc"; "a*"]))).
Proof.
  apply (one_line_per_path Examples.glob ["glob_files.py"; "src\*.cc"; "a*"]).
  vm_compute. repeat constructor.
Defined.

(** ** argparse: command lines written as flags and values *)

Section CommandLineFacts.

Import Argparse CommandLine.
Variable parser : ArgumentParser_.

(** What a well-formed pair is for the parser. *)
Lemma well_formed_inv (pair : string * string) :
  well_formed parser pair = true ->
  exists action option_string,
    flag_tuple parser (fst pair) = Some (action, option_string)
    /\ store_flag parser (fst pair) = Some action
    /\ action_class action = StoreAction
    /\ parse_optional parser (fst pair)
       = inr (Some (Some action, option_string, None))
    /\ String.eqb (fst pair) "--" = false
    /\ starts_with_dash (snd pair) = false.
Proof.
  unfold well_formed. intros H.
  apply andb_true_iff in H as [H Hv]. apply andb_true_iff in H as [Hdd Hs].
  apply bool_decide_eq_true in Hs as [[action os] Ha].
  apply negb_true_iff in Hv, Hdd.
  exists action, os. unfold store_flag. rewrite Ha.
  unfold flag_tuple in Ha.
  destruct (parse_optional parser (fst pair)) as [m|[[[[a|] os'] [e|]]|]];
    try discriminate.
  destruct (action_class a) eqn:Hc; [|discriminate].
  injection Ha as <- <-. repeat split; assumption.
Qed.

(** The patterns of a command line that starts with well-formed pairs. *)
Lemma arg_strings_pattern_pairs (pairs : list (string * string)) (rest : list string) :
  Forall (fun pair => well_formed parser pair = true) pairs ->
  arg_strings_pattern parser (command_line pairs ++ rest)
  = match arg_strings_pattern parser rest with
    | inl message => inl message
    | inr patterns => inr (flat_map (pair_patterns parser) pairs ++ patterns)
    end.
Proof.
  induction 1 as [|pair pairs Hp _ IH].
  - simpl. now destruct (arg_strings_pattern parser rest).
  - destruct (well_formed_inv pair Hp) as (action & os & Ht & Hs & Hc & Hopt & Hdd & Hv).
    change (command_line (pair :: pairs) ++ rest)
      with (fst pair :: snd pair :: (command_line pairs ++ rest)).
    rewrite (arg_strings_pattern_option parser _ _ _ Hdd Hopt).
    rewrite (arg_strings_pattern_plain parser _ _ Hv), IH.
    destruct (arg_strings_pattern parser rest) as [m|ps]; [reflexivity|].
    cbn [flat_map]. unfold pair_patterns at 2. now rewrite Ht.
Qed.

(** The loop stores the pairs from left to right and goes on. *)
Lemma consume_pairs (pairs : list (string * string)) (rest : list (string * Pattern)) :
  Forall (fun pair => well_formed parser pair = true) pairs ->
  forall (namespace : Namespace) (seen : list Action) (extras : list string),
  consume parser (flat_map (pair_patterns parser) pairs ++ rest) (namespace, seen) extras
  = consume parser rest
      (fold_left (store parser) pairs namespace, seen ++ flags_seen parser pairs) extras.
Proof.
  induction 1 as [|pair pairs Hp _ IH]; intros namespace seen extras.
  - simpl. now rewrite List.app_nil_r.
  - destruct (well_formed_inv pair Hp) as (action & os & Ht & Hs & Hc & Hopt & Hdd & Hv).
    cbn [flat_map]. unfold pair_patterns at 1. rewrite Ht.
    cbn [app]. rewrite (consume_store parser _ _ _ _ _ _ _ _ Hc Hv), IH.
    assert (Hfold : fold_left (store parser) (pair :: pairs) namespace
                    = fold_left (store parser) pairs (<[dest action:=Str (snd pair)]> namespace)).
    { change (fold_left (store parser) (pair :: pairs) namespace)
        with (fold_left (store parser) pairs (store parser namespace pair)).
      f_equal. unfold store. now rewrite Hs. }
    assert (Hseen : flags_seen parser (pair :: pairs) = action :: flags_seen parser pairs).
    { unfold flags_seen.
      change (omap (fun p => store_flag parser (fst p)) (pair :: pairs))
        with (match store_flag parser (fst pair) with
              | Some a => a :: omap (fun p => store_flag parser (fst p)) pairs
              | None => omap (fun p => store_flag parser (fst p)) pairs
              end).
      now rewrite Hs. }
    now rewrite Hfold, Hseen, <- List.app_assoc.
Qed.

(** On a command line of well-formed pairs the parser returns what the pairs
    store, when every required action has a flag there; otherwise it reports
    the required actions that have none. *)
Lemma parse_args_pairs (pairs : list (string * string)) :
  Forall (fun pair => well_formed parser pair = true) pairs ->
  parse_args parser (command_line pairs)
  = match required_actions parser (flags_seen parser pairs) with
    | [] => inr (stored parser pairs)
    | names => inl (exit_error (arguments_required names))
    end.
Proof.
  intros Hwf. unfold parse_args, parse_known_args.
  rewrite <- (List.app_nil_r (command_line pairs)).
  rewrite (arg_strings_pattern_pairs pairs [] Hwf). cbn [arg_strings_pattern].
  rewrite (consume_pairs pairs [] Hwf). cbn [consume app].
  now destruct (required_actions parser (flags_seen parser pairs)).
Qed.

(** A request for help between two runs of well-formed pairs ends the
    parsing with the help. *)
Lemma parse_args_help (pairs1 pairs2 : list (string * string)) (flag : string) :
  Forall (fun pair => well_formed parser pair = true) pairs1 ->
  Forall (fun pair => well_formed parser pair = true) pairs2 ->
  help_flag parser flag = true ->
  parse_args parser (command_line pairs1 ++ flag :: command_line pairs2)
  = inl exit_help.
Proof.
  intros H1 H2 Hh. unfold help_flag in Hh.
  apply andb_true_iff in Hh as [Hdd Hh]. apply negb_true_iff in Hdd.
  destruct (parse_optional parser flag) as [m|[[[[action|] os] [e|]]|]] eqn:Hparse;
    try discriminate.
  apply bool_decide_eq_true in Hh.
  unfold parse_args, parse_known_args.
  rewrite (arg_strings_pattern_pairs pairs1 _ H1).
  rewrite (arg_strings_pattern_option parser _ _ _ Hdd Hparse).
  rewrite <- (List.app_nil_r (command_line pairs2)).
  rewrite (arg_strings_pattern_pairs pairs2 [] H2). cbn [arg_strings_pattern].
  rewrite (consume_pairs pairs1 _ H1).
  cbn [consume]. unfold consume_optional, consume_following, match_argument.
  rewrite Hh. cbn [firstn app take_actions take_action]. now rewrite Hh.
Qed.


(** The report of the missing actions looks only at which actions were
    seen. *)
Lemma required_actions_ext (seen seen' : list Action) :
  (forall action, action ∈ seen <-> action ∈ seen') ->
  required_actions parser seen = required_actions parser seen'.
Proof.
  intros H. unfold required_actions. f_equal. apply List.filter_ext.
  intros a. f_equal. f_equal. apply bool_decide_ext, H.
Qed.

Lemma flags_seen_cons (p : string * string) (pairs : list (string * string)) :
  flags_seen parser (p :: pairs)
  = match store_flag parser (fst p) with
    | Some action => action :: flags_seen parser pairs
    | None => flags_seen parser pairs
    end.
Proof. reflexivity. Qed.

Lemma flags_seen_app (pairs1 pairs2 : list (string * string)) :
  flags_seen parser (pairs1 ++ pairs2)
  = flags_seen parser pairs1 ++ flags_seen parser pairs2.
Proof. apply omap_app. Qed.

Lemma store_commute (namespace : Namespace) (p q : string * string) :
  (forall a b, store_flag parser (fst p) = Some a ->
               store_flag parser (fst q) = Some b -> dest a <> dest b) ->
  store parser (store parser namespace p) q = store parser (store parser namespace q) p.
Proof.
  intros H. unfold store.
  destruct (store_flag parser (fst p)) as [a|]; [|reflexivity].
  destruct (store_flag parser (fst q)) as [b|]; [|reflexivity].
  apply insert_insert_ne. intros E. now apply (H a b).
Qed.

(** Flags with different destinations can come in any order. *)
Lemma fold_store_Permutation (pairs pairs' : list (string * string)) :
  pairs ≡ₚ pairs' ->
  NoDup (dest <$> flags_seen parser pairs) ->
  forall namespace,
    fold_left (store parser) pairs namespace = fold_left (store parser) pairs' namespace.
Proof.
  induction 1 as [|p l l' Hperm IH|p q l|l l' l'' H1 IH1 H2 IH2]; intros Hnd namespace.
  - reflexivity.
  - cbn [fold_left]. apply IH. rewrite flags_seen_cons in Hnd.
    destruct (store_flag parser (fst p)); [|exact Hnd].
    rewrite fmap_cons in Hnd. now apply NoDup_cons in Hnd as [_ Hnd].
  - cbn [fold_left]. f_equal. apply store_commute.
    intros a b Ha Hb E. rewrite !flags_seen_cons, Ha, Hb in Hnd.
    rewrite !fmap_cons in Hnd.
    apply NoDup_cons in Hnd as [Hnot _]. apply Hnot. rewrite E.
    apply elem_of_cons. now left.
  - rewrite IH1 by assumption. apply IH2.
    unfold flags_seen in *. now rewrite <- H1.
Qed.

(** A value that a later flag of the same action overwrites does not count. *)
Lemma fold_store_overwritten (pairs : list (string * string)) (action : Action) :
  action ∈ flags_seen parser pairs ->
  forall (v : Value) (namespace : Namespace),
    fold_left (store parser) pairs (<[dest action := v]> namespace)
    = fold_left (store parser) pairs namespace.
Proof.
  induction pairs as [|p pairs IH]; intros Hin v namespace.
  - now apply elem_of_nil in Hin.
  - cbn [fold_left]. rewrite flags_seen_cons in Hin.
    unfold store at 2 4.
    destruct (store_flag parser (fst p)) as [b|] eqn:Hb; [|now apply IH].
    destruct (decide (dest b = dest action)) as [E|E].
    + now rewrite E, insert_insert_eq.
    + rewrite insert_insert_ne by congruence. apply IH.
      apply elem_of_cons in Hin as [->|Hin]; [contradiction | exact Hin].
Qed.

(** The loop never takes anything back from [extras]. *)
Lemma consume_extras (patterns : list (string * Pattern)) :
  forall (st : ParseState) (extras : list string),
  extras <> [] ->
  match consume parser patterns st extras with
  | inl _ => True
  | inr (_, extras') => extras' <> []
  end.
Proof.
  remember (length patterns) as n eqn:Hn. revert patterns Hn.
  induction n as [n IH] using lt_wf_ind. intros patterns Hn st extras Hex.
  destruct patterns as [|[s p] rest]; [exact Hex|].
  assert (Hrest : forall rest0 st1 extras1,
             length rest0 <= length rest -> extras1 <> [] ->
             match consume parser rest0 st1 extras1 with
             | inl _ => True
             | inr (_, extras') => extras' <> []
             end).
  { intros rest0 st1 extras1 Hlen.
    apply (IH (length rest0)); [simpl in Hn; lia | reflexivity]. }
  assert (Hgrow : extras ++ [s] <> []) by (now destruct extras).
  destruct p as [[[[action|] os] e]| |]; try (simpl; now apply Hrest).
  simpl.
  destruct (consume_optional parser action os e rest) as [m|[tuples arg_count]];
    [exact I|].
  destruct (take_actions st tuples) as [e'|st1]; [exact I|].
  destruct arg_count as [|k]; [now apply Hrest|].
  destruct rest as [|p' rest']; [now apply Hrest|].
  apply Hrest; [simpl; lia | exact Hex].
Qed.

(** An argument that is no option and follows no flag is not accepted. *)
Lemma parse_args_stray (pairs : list (string * string)) (s : string)
    (rest : list string) :
  Forall (fun pair => well_formed parser pair = true) pairs ->
  starts_with_dash s = false ->
  exists e, parse_args parser (command_line pairs ++ s :: rest) = inl e.
Proof.
  intros Hwf Hs. unfold parse_args, parse_known_args.
  rewrite (arg_strings_pattern_pairs pairs _ Hwf).
  rewrite (arg_strings_pattern_plain parser _ _ Hs).
  destruct (arg_strings_pattern parser rest) as [m|ps]; [eauto|].
  rewrite (consume_pairs pairs _ Hwf). cbn [consume].
  pose proof (consume_extras ps (fold_left (store parser) pairs ∅,
                                 [] ++ flags_seen parser pairs) ([] ++ [s])
                ltac:(discriminate)) as H.
  destruct (consume parser ps _ _) as [e|[[ns seen] extras]]; [eauto|].
  destruct (required_actions parser seen); [|eauto].
  destruct extras; [contradiction | eauto].
Qed.

(** An earlier occurrence of a flag that comes again can be removed. *)
Lemma parse_args_repeated (pairs1 pairs2 : list (string * string))
    (pair : string * string) (action : Action) :
  Forall (fun pair => well_formed parser pair = true) (pairs1 ++ pair :: pairs2) ->
  store_flag parser (fst pair) = Some action ->
  action ∈ flags_seen parser pairs2 ->
  parse_args parser (command_line (pairs1 ++ pair :: pairs2))
  = parse_args parser (command_line (pairs1 ++ pairs2)).
Proof.
  intros Hwf Hs Hin.
  assert (Hwf' : Forall (fun pair => well_formed parser pair = true) (pairs1 ++ pairs2)).
  { apply Forall_app in Hwf as [H1 H2]. apply Forall_app. split; [exact H1|].
    now apply Forall_cons in H2 as [_ H2]. }
  rewrite (parse_args_pairs _ Hwf), (parse_args_pairs _ Hwf').
  assert (Hreq : required_actions parser (flags_seen parser (pairs1 ++ pair :: pairs2))
                 = required_actions parser (flags_seen parser (pairs1 ++ pairs2))).
  { apply required_actions_ext. intros a. rewrite !flags_seen_app.
    rewrite flags_seen_cons, Hs.
    rewrite !elem_of_app, elem_of_cons.
    split; [intros [?|[->|?]]; auto | intros [?|?]; auto]. }
  rewrite Hreq.
  destruct (required_actions parser (flags_seen parser (pairs1 ++ pairs2)));
    [|reflexivity].
  f_equal. unfold stored. rewrite !fold_left_app. cbn [fold_left].
  unfold store at 2. rewrite Hs. now apply fold_store_overwritten.
Qed.

(** Well-formed pairs with different destinations can be permuted. *)
Lemma parse_args_Permutation (pairs pairs' : list (string * string)) :
  pairs ≡ₚ pairs' ->
  Forall (fun pair => well_formed parser pair = true) pairs ->
  NoDup (dest <$> flags_seen parser pairs) ->
  parse_args parser (command_line pairs) = parse_args parser (command_line pairs').
Proof.
  intros Hperm Hwf Hnd.
  assert (Hwf' : Forall (fun pair => well_formed parser pair = true) pairs')
    by now rewrite <- Hperm.
  rewrite (parse_args_pairs _ Hwf), (parse_args_pairs _ Hwf').
  assert (Hreq : required_actions parser (flags_seen parser pairs)
                 = required_actions parser (flags_seen parser pairs')).
  { apply required_actions_ext. intros a. unfold flags_seen. now rewrite Hperm. }
  rewrite Hreq. destruct (required_actions parser (flags_seen parser pairs'));
    [|reflexivity].
  f_equal. now apply fold_store_Permutation.
Qed.

End CommandLineFacts.

(** ** generate_entity_schema.py: the command line and the failures of the copy *)

Import CommandLine.

(** [main] looks at its command line through [parse_args] only. *)
Lemma main_tail (argv argv' : list string) (fs : FileSystem) :
  parse_args parser (tail argv) = parse_args parser (tail argv') ->
  main argv fs = main argv' fs.
Proof. intros H. unfold main. now rewrite H. Qed.

(** X5.  On a command line made of flags of store actions, written in full
    or abbreviated, each followed by a value that does not start with a dash,
    [main] ends in the parser, the file system untouched, with the list of
    the required flags that are missing, in the order of their declaration,
    when there is one; otherwise it runs the file statements on the namespace
    in which each attribute has the value of the last flag that sets it. *)
Theorem well_formed_command_line
    (prog : string) (pairs : list (string * string)) (fs : FileSystem) :
  Forall (fun pair => well_formed parser pair = true) pairs ->
  main (prog :: command_line pairs) fs
  = match required_actions parser (flags_seen parser pairs) with
    | [] =>
        match append_schema (stored parser pairs) fs with
        | (inl e, fs') => (Raised e, fs')
        | (inr _, fs') => (Returned, fs')
        end
    | names => (Exited (exit_error (arguments_required names)), fs)
    end.
Proof.
  intros Hwf. unfold main. cbn [tail].
  rewrite (parse_args_pairs parser pairs Hwf).
  now destruct (required_actions parser (flags_seen parser pairs)).
Qed.

Lemma well_formed_command_line_witness :
  main ("generate_entity_schema.py"
          :: command_line [("--outfile", "out.fbs"); ("-x", "entity.fbs")])
       Examples.fs0
  = (Exited (exit_error (arguments_required ["--infile/-i"; "--identifier"])),
     Examples.fs0).
Proof.
  rewrite (well_formed_command_line "generate_entity_schema.py"
             [("--outfile", "out.fbs"); ("-x", "entity.fbs")] Examples.fs0).
  - evaluate.
  - repeat constructor.
Defined.

(** X8.  The order of the flags does not matter: two command lines of
    well-formed pairs that are permutations of each other, no destination
    set twice, make the same run. *)
Theorem flag_order_irrelevant
    (prog : string) (pairs pairs' : list (string * string)) (fs : FileSystem) :
  pairs ≡ₚ pairs' ->
  Forall (fun pair => well_formed parser pair = true) pairs ->
  NoDup (dest <$> flags_seen parser pairs) ->
  main (prog :: command_line pairs) fs = main (prog :: command_line pairs') fs.
Proof.
  intros Hperm Hwf Hnd. apply main_tail. cbn [tail].
  now apply parse_args_Permutation.
Qed.

(** X9.  A flag given again later is not an error, and the later value is
    the one used: the run is the run of the command line without the earlier
    occurrence. *)
Theorem repeated_flag_last_wins
    (prog : string) (pairs1 pairs2 : list (string * string))
    (pair : string * string) (action : Action) (fs : FileSystem) :
  Forall (fun pair => well_formed parser pair = true) (pairs1 ++ pair :: pairs2) ->
  store_flag parser (fst pair) = Some action ->
  action ∈ flags_seen parser pairs2 ->
  main (prog :: command_line (pairs1 ++ pair :: pairs2)) fs
  = main (prog :: command_line (pairs1 ++ pairs2)) fs.
Proof.
  intros Hwf Hs Hin. apply main_tail. cbn [tail].
  now apply (parse_args_repeated parser pairs1 pairs2 pair action).
Qed.

(** X10.  A request for help among well-formed pairs, before them, between
    them or after them, ends the run with the help and status 0, even when
    all four required flags are there: no file is read or written. *)
Theorem help_anywhere
    (prog flag : string) (pairs1 pairs2 : list (string * string)) (fs : FileSystem) :
  Forall (fun pair => well_formed parser pair = true) pairs1 ->
  Forall (fun pair => well_formed parser pair = true) pairs2 ->
  help_flag parser flag = true ->
  main (prog :: command_line pairs1 ++ flag :: command_line pairs2) fs
  = (Exited exit_help, fs)
  /\ exit_status (fst (main (prog :: command_line pairs1 ++ flag :: command_line pairs2) fs))
     = 0%Z.
Proof.
  intros H1 H2 Hh.
  unfold main. cbn [tail]. rewrite (parse_args_help parser pairs1 pairs2 flag H1 H2 Hh).
  split; reflexivity.
Qed.

(** X11.  The script takes no positional argument: an argument that does
    not start with a dash and is not the value of a flag ends the run in the
    parser, the file system untouched; through [parser.error], status 2,
    unless help is requested somewhere on the command line. *)
Theorem stray_argument_rejected
    (prog s : string) (pairs : list (string * string)) (rest : list string)
    (fs : FileSystem) :
  Forall (fun pair => well_formed parser pair = true) pairs ->
  starts_with_dash s = false ->
  (exists e, main (prog :: command_line pairs ++ s :: rest) fs = (Exited e, fs))
  /\ (help_requested parser (command_line pairs ++ s :: rest) = false ->
      exists message,
        main (prog :: command_line pairs ++ s :: rest) fs
        = (Exited (exit_error message), fs)).
Proof.
  intros Hwf Hs. unfold main. cbn [tail].
  destruct (parse_args_stray parser pairs s rest Hwf Hs) as [e He]. rewrite He.
  split; [eauto|]. intros Hhelp. destruct e as [|m]; [|eauto].
  apply parse_args_exit_help in He. congruence.
Qed.

(** X12.  From the command line to the file: with the four long flags, each
    followed by a value that does not start with a dash, the input file and
    the append file present and readable, the output path writable and
    leading to a file other than these two, the append file decodable, the
    text and the declaration encodable and room for them on the host, the run
    returns and the output file is the input file, the text of the append
    file as text mode writes it back, and the declaration of the
    identifier. *)
Theorem run_plain_command_line
    (prog src extra dst ident a b data line : string) (s : Text) (fs : FileSystem) :
  starts_with_dash src = false -> starts_with_dash extra = false ->
  starts_with_dash dst = false -> starts_with_dash ident = false ->
  files fs !! resolve fs src = Some a ->
  refuse_read fs !! resolve fs src = None ->
  files fs !! resolve fs extra = Some b ->
  refuse_read fs !! resolve fs extra = None ->
  refuse_write fs !! resolve fs dst = None ->
  resolve fs dst <> resolve fs src -> resolve fs dst <> resolve fs extra ->
  decode fs b = Some s ->
  encode fs (to_linesep (linesep fs) (universal_newlines s)) = Some data ->
  encode fs (to_linesep (linesep fs) (declaration (fsdecode fs ident))) = Some line ->
  fits fs (resolve fs dst) (String.length (a +:+ data +:+ line)) = true ->
  main [prog; "--infile"; src; "--appendfile"; extra; "--outfile"; dst;
        "--identifier"; ident] fs
  = (Returned, set_files fs (<[resolve fs dst := a +:+ data +:+ line]> (files fs))).
Proof.
  intros H1 H2 H3 H4 Ha Hra Hb Hrb Hw Hne1 Hne2 Hs Hdata Hline Hfit.
  pose proof (parse_args_plain src extra dst ident H1 H2 H3 H4) as Hparse.
  set (args := <["identifier":=Str ident]>
                 (<["outfile":=Str dst]>
                    (<["appendfile":=Str extra]> (<["infile":=Str src]> ∅)))) in Hparse.
  assert (Hsrc : args !! "infile" = Some (Str src)) by reflexivity.
  assert (Hextra : args !! "appendfile" = Some (Str extra)) by reflexivity.
  assert (Hdst : args !! "outfile" = Some (Str dst)) by reflexivity.
  assert (Hident : args !! "identifier" = Some (Str ident)) by reflexivity.
  destruct (accepted_three fs (resolve fs dst) a data line Hfit)
    as (Hfit1 & Hfit2 & Hfit3).
  rewrite (main_copied
             [prog; "--infile"; src; "--appendfile"; extra; "--outfile"; dst;
              "--identifier"; ident]
             args src extra dst Hparse Hsrc Hextra Hdst fs a)
    by (apply copyfile_succeeds; (assumption || congruence)).
  rewrite lookup_insert_ne, Hb, Hrb, Hs, Hw, Hdata by assumption.
  rewrite Hident, percent_template. cbn [str]. rewrite Hline, Hfit2, Hfit3.
  now rewrite !String.eqb_refl.
Qed.

(** X13.  The script does not work in place: when [--infile] and
    [--outfile] are the same path, [copyfile] raises [shutil.Error] (or
    [IOError], errno [ENOENT], when the file does not exist), the run ends
    with status 1 and the file is left as it was. *)
Theorem copy_refused_in_place
    (argv : list string) (fs : FileSystem) (args : Namespace) (path extra : string) :
  parse_args parser (tail argv) = inr args ->
  args !! "infile" = Some (Str path) ->
  args !! "appendfile" = Some (Str extra) ->
  args !! "outfile" = Some (Str path) ->
  main argv fs
  = (Raised (match files fs !! resolve fs path with
             | Some _ => shutil_Error path path
             | None => IOError ENOENT path
             end), fs)
  /\ exit_status (fst (main argv fs)) = 1%Z.
Proof.
  intros Hparse Hsrc Hextra Hdst.
  assert (Hcopy : copyfile path path fs
                  = (inl (match files fs !! resolve fs path with
                          | Some _ => shutil_Error path path
                          | None => IOError ENOENT path
                          end), fs)).
  { rewrite copyfile_eq. destruct (files fs !! resolve fs path); [|reflexivity].
    now rewrite bool_decide_eq_true_2 by reflexivity. }
  rewrite (main_not_copied argv args path path Hparse Hsrc Hdst fs fs _ Hcopy).
  split; reflexivity.
Qed.

(** X14.  When the host refuses to open the input file for reading, or the
    output path for writing, the run ends with the [IOError] of the refusal,
    whatever its errno ([EACCES] without the permission, [ENOENT] for an
    output path in a directory that does not exist, [EISDIR] for a
    directory), and nothing is written.  When it refuses to open the append
    file, the run ends the same way after the copy, and the output file holds
    the copy of the input file. *)
Theorem refused_open_leaves_files
    (argv : list string) (fs : FileSystem) (args : Namespace)
    (src extra dst a : string) (errno : Errno) :
  parse_args parser (tail argv) = inr args ->
  args !! "infile" = Some (Str src) ->
  args !! "appendfile" = Some (Str extra) ->
  args !! "outfile" = Some (Str dst) ->
  files fs !! resolve fs src = Some a -> resolve fs src <> resolve fs dst ->
  (refuse_read fs !! resolve fs src = Some errno ->
   main argv fs = (Raised (IOError errno src), fs))
  /\ (refuse_read fs !! resolve fs src = None ->
      refuse_write fs !! resolve fs dst = Some errno ->
      main argv fs = (Raised (IOError errno dst), fs))
  /\ (refuse_read fs !! resolve fs src = None ->
      refuse_write fs !! resolve fs dst = None ->
      fits fs (resolve fs dst) (String.length a) = true ->
      resolve fs extra <> resolve fs dst ->
      is_Some (files fs !! resolve fs extra) ->
      refuse_read fs !! resolve fs extra = Some errno ->
      main argv fs
      = (Raised (IOError errno extra),
         set_files fs (<[resolve fs dst := a]> (files fs)))).
Proof.
  intros Hparse Hsrc Hextra Hdst Ha Hne. split; [|split].
  - intros Hr.
    apply (main_not_copied argv args src dst Hparse Hsrc Hdst).
    rewrite copyfile_eq, Ha, Hr.
    now rewrite bool_decide_eq_false_2 by assumption.
  - intros Hr Hw.
    apply (main_not_copied argv args src dst Hparse Hsrc Hdst).
    rewrite copyfile_eq, Ha, Hr, Hw.
    now rewrite bool_decide_eq_false_2 by assumption.
  - intros Hr Hw Hfit Hne2 [b Hb] Hrx.
    rewrite (main_copied argv args src extra dst Hparse Hsrc Hextra Hdst fs a).
    + now rewrite lookup_insert_ne, Hb, Hrx by congruence.
    + apply copyfile_succeeds; try assumption.
      apply accepted_fits. now rewrite append_nil_l.
Qed.

(** X15.  Every run that returns has written one file, the output file,
    which is not the input file: the input file is intact, and the output
    file is the input file's content, then the encoding of the text read from
    the append path, which is the decoded content, its line endings
    translated, of the file that the append path leads to once the copy is
    made, then the encoding of the declaration of the identifier. *)
Theorem returned_run_shape (argv : list string) (fs fs' : FileSystem) :
  main argv fs = (Returned, fs') ->
  exists (args : Namespace) (src extra dst a c data line : string) (s : Text),
    parse_args parser (tail argv) = inr args
    /\ args !! "infile" = Some (Str src)
    /\ args !! "appendfile" = Some (Str extra)
    /\ args !! "outfile" = Some (Str dst)
    /\ resolve fs src <> resolve fs dst
    /\ files fs !! resolve fs src = Some a
    /\ files fs' !! resolve fs src = Some a
    /\ (if bool_decide (resolve fs extra = resolve fs dst)
        then c = a else files fs !! resolve fs extra = Some c)
    /\ decode fs c = Some s
    /\ encode fs (to_linesep (linesep fs) (universal_newlines s)) = Some data
    /\ encode fs
         (to_linesep (linesep fs)
            (declaration (str (fsdecode fs) (args !! "identifier"))))
       = Some line
    /\ files fs' !! resolve fs dst = Some (a +:+ data +:+ line)
    /\ (forall file, file <> resolve fs dst -> files fs' !! file = files fs !! file).
Proof.
  intros Hmain.
  destruct (main_returned_inv argv fs fs' Hmain)
    as (args & src & extra & dst & a & c & data & line & s & Hparse & Hsrc & Hextra
        & Hdst & Hcopy & Ha & Hne & Hc & Hrx & Hs & Hdata & Hline & ->).
  exists args, src, extra, dst, a, c, data, line, s.
  rewrite files_set_files, <- percent_template.
  repeat (split; [assumption|]).
  split; [now rewrite lookup_insert_ne by congruence|].
  split.
  { destruct (bool_decide (resolve fs extra = resolve fs dst)) eqn:Hsame.
    - apply bool_decide_eq_true in Hsame. rewrite Hsame, lookup_insert_eq in Hc.
      congruence.
    - apply bool_decide_eq_false in Hsame.
      now rewrite lookup_insert_ne in Hc by congruence. }
  repeat (split; [assumption|]).
  split; [apply lookup_insert_eq|].
  intros file Hfile. apply lookup_insert_ne. congruence.
Qed.

(** Pairs that select the same actions with the same values store the
    same. *)
Lemma fold_store_spelling (pairs pairs' : list (string * string)) :
  Forall2 (fun p q => store_flag parser (fst p) = store_flag parser (fst q)
                      /\ snd p = snd q) pairs pairs' ->
  (forall namespace,
      fold_left (store parser) pairs namespace
      = fold_left (store parser) pairs' namespace)
  /\ flags_seen parser pairs = flags_seen parser pairs'.
Proof.
  induction 1 as [|p q l l' [Hflag Hvalue] _ [IH1 IH2]]; [split; reflexivity|].
  split.
  - intros namespace. cbn [fold_left].
    replace (store parser namespace q) with (store parser namespace p)
      by (unfold store; now rewrite Hflag, Hvalue).
    apply IH1.
  - rewrite !flags_seen_cons, Hflag, IH2. reflexivity.
Qed.

(** X6.  How a flag is spelled does not matter: two command lines of
    well-formed pairs whose flags, one by one, select the same action and
    carry the same value make the same run ([-i] for [--infile], [--app] for
    [--appendfile], and so on). *)
Theorem flag_spelling_irrelevant
    (prog : string) (pairs pairs' : list (string * string)) (fs : FileSystem) :
  Forall (fun pair => well_formed parser pair = true) pairs ->
  Forall (fun pair => well_formed parser pair = true) pairs' ->
  Forall2 (fun p q => store_flag parser (fst p) = store_flag parser (fst q)
                      /\ snd p = snd q) pairs pairs' ->
  main (prog :: command_line pairs) fs = main (prog :: command_line pairs') fs.
Proof.
  intros Hwf Hwf' Hsame. apply main_tail. cbn [tail].
  rewrite (parse_args_pairs parser pairs Hwf), (parse_args_pairs parser pairs' Hwf').
  destruct (fold_store_spelling pairs pairs' Hsame) as [Hfold Hseen].
  unfold stored. now rewrite Hseen, Hfold.
Qed.

(** Enumerates the prefixes of a literal string. *)
Ltac prefixes flag H :=
  repeat (destruct flag as [|? flag];
          [| simpl in H;
             first [ discriminate H
                   | match type of H with
                     | context [ascii_dec ?a ?b] =>
                         destruct (ascii_dec a b); [subst|discriminate H]
                     end ]]).

(** X7.  The spellings of the four flags: the short option, and every
    prefix of the long option that is long enough to match no other option
    ([--in], [--a], [--o], [--id] at least). *)
Theorem abbreviated_flags (flag : string) :
  (flag = "-i" \/ (String.prefix flag "--infile" = true /\ 4 <= String.length flag) ->
   store_flag parser flag = Some Inputs.infile_action)
  /\ (flag = "-x" \/ (String.prefix flag "--appendfile" = true /\ 3 <= String.length flag) ->
      store_flag parser flag = Some Inputs.appendfile_action)
  /\ (flag = "-o" \/ (String.prefix flag "--outfile" = true /\ 3 <= String.length flag) ->
      store_flag parser flag = Some Inputs.outfile_action)
  /\ (String.prefix flag "--identifier" = true /\ 4 <= String.length flag ->
      store_flag parser flag = Some Inputs.identifier_action).
Proof.
  split; [|split; [|split]].
  - intros [->|[H Hlen]]; [vm_compute; reflexivity|].
    prefixes flag H; simpl in Hlen; try lia; vm_compute; reflexivity.
  - intros [->|[H Hlen]]; [vm_compute; reflexivity|].
    prefixes flag H; simpl in Hlen; try lia; vm_compute; reflexivity.
  - intros [->|[H Hlen]]; [vm_compute; reflexivity|].
    prefixes flag H; simpl in Hlen; try lia; vm_compute; reflexivity.
  - intros [H Hlen].
    prefixes flag H; simpl in Hlen; try lia; vm_compute; reflexivity.
Qed.

Lemma parsed_arguments_witness :
  is_Some (Examples.args0 !! "infile") /\ is_Some (Examples.args0 !! "appendfile")
  /\ is_Some (Examples.args0 !! "outfile") /\ is_Some (Examples.args0 !! "identifier").
Proof.
  apply (parsed_arguments Examples.argv0 Examples.args0). reflexivity.
Defined.

Lemma flag_order_irrelevant_witness :
  main ("generate_entity_schema.py" :: command_line Inputs.pairs0) Examples.fs0
  = main ("generate_entity_schema.py" :: command_line (rev Inputs.pairs0)) Examples.fs0.
Proof.
  apply (flag_order_irrelevant "generate_entity_schema.py" Inputs.pairs0
           (rev Inputs.pairs0) Examples.fs0).
  - apply Permutation_rev.
  - repeat (constructor; [vm_compute; reflexivity|]). constructor.
  - vm_compute. repeat (constructor; [rewrite ?elem_of_cons, ?elem_of_nil; intuition discriminate|]).
    constructor.
Defined.

Lemma repeated_flag_last_wins_witness :
  main ("generate_entity_schema.py"
          :: command_line ([] ++ ("-i", "old.fbs") :: Inputs.pairs0)) Examples.fs0
  = main ("generate_entity_schema.py" :: command_line ([] ++ Inputs.pairs0)) Examples.fs0.
Proof.
  apply (repeated_flag_last_wins "generate_entity_schema.py" [] Inputs.pairs0
           ("-i", "old.fbs") Inputs.infile_action Examples.fs0).
  - repeat (constructor; [vm_compute; reflexivity|]). constructor.
  - vm_compute. reflexivity.
  - vm_compute. apply elem_of_cons. now left.
Defined.

Lemma help_anywhere_witness :
  main ("generate_entity_schema.py"
          :: command_line Inputs.pairs0 ++ "--help" :: command_line []) Examples.fs0
  = (Exited exit_help, Examples.fs0)
  /\ exit_status
       (fst (main ("generate_entity_schema.py"
                     :: command_line Inputs.pairs0 ++ "--help" :: command_line [])
                  Examples.fs0)) = 0%Z.
Proof.
  apply (help_anywhere "generate_entity_schema.py" "--help" Inputs.pairs0 []
           Examples.fs0).
  - repeat (constructor; [vm_compute; reflexivity|]). constructor.
  - constructor.
  - vm_compute. reflexivity.
Defined.

Lemma stray_argument_rejected_witness :
  exists message,
    main ("generate_entity_schema.py"
            :: command_line Inputs.pairs0 ++ "extra.fbs" :: []) Examples.fs0
    = (Exited (exit_error message), Examples.fs0).
Proof.
  apply (stray_argument_rejected "generate_entity_schema.py" "extra.fbs"
           Inputs.pairs0 [] Examples.fs0).
  - repeat (constructor; [vm_compute; reflexivity|]). constructor.
  - reflexivity.
  - vm_compute. reflexivity.
Defined.

Lemma run_plain_command_line_witness :
  main ["generate_entity_schema.py"; "--infile"; "in.fbs"; "--appendfile";
        "entity.fbs"; "--outfile"; "out.fbs"; "--identifier"; "FOOX"] Examples.fs0
  = (Returned,
     set_files Examples.fs0
       (<[resolve Examples.fs0 "out.fbs" :=
            Examples.foo +:+ Examples.bar +:+ Examples.foox]>
          (files Examples.fs0))).
Proof.
  apply (run_plain_command_line "generate_entity_schema.py" "in.fbs" "entity.fbs"
           "out.fbs" "FOOX" Examples.foo Examples.bar Examples.bar Examples.foox
           (text Examples.bar) Examples.fs0);
    evaluate.
Defined.

Lemma copy_refused_in_place_witness :
  main Inputs.argv_in_place Examples.fs0
  = (Raised (match files Examples.fs0 !! resolve Examples.fs0 "in.fbs" with
             | Some _ => shutil_Error "in.fbs" "in.fbs"
             | None => IOError ENOENT "in.fbs"
             end), Examples.fs0)
  /\ exit_status (fst (main Inputs.argv_in_place Examples.fs0)) = 1%Z.
Proof.
  apply (copy_refused_in_place Inputs.argv_in_place Examples.fs0 Inputs.args_in_place
           "in.fbs" "entity.fbs"); reflexivity.
Defined.

Lemma refused_open_leaves_files_witness :
  main Examples.argv0 Inputs.fs_unreadable
  = (Raised (IOError EACCES "in.fbs"), Inputs.fs_unreadable)
  /\ main Examples.argv0 Inputs.fs_unwritable
     = (Raised (IOError ENOENT "out.fbs"), Inputs.fs_unwritable).
Proof.
  split.
  - apply (refused_open_leaves_files Examples.argv0 Inputs.fs_unreadable Examples.args0
             "in.fbs" "entity.fbs" "out.fbs" Examples.foo EACCES);
      evaluate.
  - apply (refused_open_leaves_files Examples.argv0 Inputs.fs_unwritable Examples.args0
             "in.fbs" "entity.fbs" "out.fbs" Examples.foo ENOENT);
      evaluate.
Defined.

Lemma returned_run_shape_witness :
  exists (args : Namespace) (src extra dst a c data line : string) (s : Text),
    parse_args parser (tail Examples.argv0) = inr args
    /\ args !! "infile" = Some (Str src)
    /\ args !! "appendfile" = Some (Str extra)
    /\ args !! "outfile" = Some (Str dst)
    /\ resolve Examples.fs0 src <> resolve Examples.fs0 dst
    /\ files Examples.fs0 !! resolve Examples.fs0 src = Some a
    /\ files Examples.fs_out !! resolve Examples.fs0 src = Some a
    /\ (if bool_decide (resolve Examples.fs0 extra = resolve Examples.fs0 dst)
        then c = a else files Examples.fs0 !! resolve Examples.fs0 extra = Some c)
    /\ decode Examples.fs0 c = Some s
    /\ encode Examples.fs0
         (to_linesep (linesep Examples.fs0) (universal_newlines s)) = Some data
    /\ encode Examples.fs0
         (to_linesep (linesep Examples.fs0)
            (declaration (str (fsdecode Examples.fs0) (args !! "identifier"))))
       = Some line
    /\ files Examples.fs_out !! resolve Examples.fs0 dst = Some (a +:+ data +:+ line)
    /\ (forall file, file <> resolve Examples.fs0 dst ->
                     files Examples.fs_out !! file = files Examples.fs0 !! file).
Proof.
  apply (returned_run_shape Examples.argv0 Examples.fs0 Examples.fs_out).
  evaluate.
Defined.

Lemma flag_spelling_irrelevant_witness :
  main ("generate_entity_schema.py" :: command_line Inputs.pairs_short) Examples.fs0
  = main ("generate_entity_schema.py" :: command_line Inputs.pairs0) Examples.fs0.
Proof.
  apply (flag_spelling_irrelevant "generate_entity_schema.py" Inputs.pairs_short
           Inputs.pairs0 Examples.fs0).
  - repeat (constructor; [vm_compute; reflexivity|]). constructor.
  - repeat (constructor; [vm_compute; reflexivity|]). constructor.
  - repeat (constructor; [split; vm_compute; reflexivity|]). constructor.
Defined.

Lemma abbreviated_flags_witness :
  store_flag parser "--inf" = Some Inputs.infile_action
  /\ store_flag parser "--app" = Some Inputs.appendfile_action
  /\ store_flag parser "-o" = Some Inputs.outfile_action
  /\ store_flag parser "--ident" = Some Inputs.identifier_action.
Proof.
  split; [|split; [|split]].
  - apply (abbreviated_flags "--inf"). right. split; [reflexivity | simpl; lia].
  - apply (abbreviated_flags "--app"). right. split; [reflexivity | simpl; lia].
  - apply (abbreviated_flags "-o"). left. reflexivity.
  - apply (abbreviated_flags "--ident"). split; [reflexivity | simpl; lia].
Defined.
